(** * wcat: a shallow embedding of [initial-utilities/wcat/wcat.c]

    The program concatenates the files named on its command line onto
    standard output.  Its only collaborators are four C library calls
    ([fopen], [fgets], [printf], [fclose]); they are modelled below as
    operations on an explicit [world] (file system, table of open streams,
    standard output, and a log of the calls made), following ISO C 7.21
    on a POSIX host, where the text mode ["r"] does not translate bytes.
    A path can be opened exactly when the file system has an entry for
    it, and a file is the list of its bytes: reads do not fail half way.

    Undefined behaviour (a read past the end of the buffer, the use of a
    stream that is not open) is a [Fault], so that "the program is
    well defined" is a statement that can be proved. *)

From Stdlib Require Import Strings.Byte.
From stdpp Require Import gmap strings list fin_maps.

Open Scope Z_scope.

(** ** Bytes *)

#[global] Instance byte_eq_dec : EqDecision byte := Byte.byte_eq_dec.

(** The C string terminator and the line terminator. *)
Definition NUL : byte := x00.
Definition LF : byte := x0a.

(** ** The world *)

(** A [FILE *] is an index into the table of open streams. *)
Abbreviation handle := nat.

(** One entry per C library call the program makes. *)
Inductive event : Type :=
| EvOpen (path : string) (r : option handle)  (* fopen; [None] is NULL *)
| EvGets (f : handle) (chunk : list byte)     (* fgets; [[]] is NULL *)
| EvPrintfS (buf : list byte)                 (* printf("%s", buf) *)
| EvPrintf (text : list byte)                 (* printf of a literal *)
| EvClose (f : handle).                       (* fclose *)

Record world : Type := World {
  files : gmap string (list byte);   (* paths that can be opened for reading *)
  streams : gmap handle (list byte); (* open streams: the bytes still unread *)
  stdout : list byte;                (* everything written so far *)
  trace : list event                 (* the calls made so far, oldest first *)
}.

Definition init_world (fs : gmap string (list byte)) : world :=
  World fs ∅ [] [].

(** ** A state and fault monad *)

Inductive fault : Type :=
| OutOfBounds   (* access outside the line buffer *)
| BadStream     (* use of a stream that is not open *)
| OutOfFuel.    (* the loop measure ran out; shown unreachable below *)

Inductive outcome (A : Type) : Type :=
| Ok (a : A) (w : world)
| Fault (e : fault).
Arguments Ok {A} a w.
Arguments Fault {A} e.

Definition M (A : Type) : Type := world → outcome A.

Definition ret {A} (a : A) : M A := λ w, Ok a w.

Definition bind {A B} (m : M A) (k : A → M B) : M B :=
  λ w, match m w with
       | Ok a w' => k a w'
       | Fault e => Fault e
       end.

Definition fail {A} (e : fault) : M A := λ _, Fault e.

Declare Scope wcat_scope.
Delimit Scope wcat_scope with wcat.
Notation "'let*' x ':=' m 'in' k" := (bind m (λ x, k))
  (at level 10, x name, m at level 100, k at level 200) : wcat_scope.
Notation "m ;;; k" := (bind m (λ _, k))
  (at level 100, right associativity) : wcat_scope.
Open Scope wcat_scope.

(** ** The C library *)

(** [fopen(path, "r")]: NULL when the path cannot be opened, otherwise a
    stream that is not in use, positioned at the first byte. *)
Definition fopen (path : string) : M (option handle) :=
  λ w, match files w !! path with
       | None =>
           Ok None (World (files w) (streams w) (stdout w)
                          (trace w ++ [EvOpen path None]))
       | Some content =>
           let f := fresh (dom (streams w)) in
           Ok (Some f) (World (files w) (<[f := content]> (streams w)) (stdout w)
                              (trace w ++ [EvOpen path (Some f)]))
       end.

(** [fclose(f)]. *)
Definition fclose (f : handle) : M unit :=
  λ w, match streams w !! f with
       | None => Fault BadStream
       | Some _ =>
           Ok tt (World (files w) (delete f (streams w)) (stdout w)
                        (trace w ++ [EvClose f]))
       end.

(** What one [fgets] takes off a stream: at most [m] bytes, stopping after
    the first line terminator, which is kept.  Returns the bytes taken and
    the bytes left. *)
Fixpoint fgets_scan (m : nat) (s : list byte) : list byte * list byte :=
  match m, s with
  | O, _ => ([], s)
  | S _, [] => ([], [])
  | S m', c :: s' =>
      if decide (c = LF) then ([c], s')
      else let '(taken, rest) := fgets_scan m' s' in (c :: taken, rest)
  end.

(** [fgets(buf, n, f)] (ISO C 7.21.7.2): reads at most [n - 1] bytes into
    [buf] and writes a NUL right after the last byte read.  At end of file
    with nothing read the buffer is left as it was and NULL is returned,
    here [None]; otherwise the new contents of the buffer are returned.
    [n] is positive in this program; for [n = 0] the model returns NULL. *)
Definition fgets (buf : list byte) (n : nat) (f : handle) : M (option (list byte)) :=
  λ w, match streams w !! f with
       | None => Fault BadStream
       | Some s =>
           match n, s with
           | O, _ | S (S _), [] =>
               Ok None (World (files w) (streams w) (stdout w)
                              (trace w ++ [EvGets f []]))
           | S m, _ =>
               let '(taken, rest) := fgets_scan m s in
               if decide (length taken < length buf)%nat then
                 Ok (Some (taken ++ NUL :: drop (S (length taken)) buf))
                    (World (files w) (<[f := rest]> (streams w)) (stdout w)
                           (trace w ++ [EvGets f taken]))
               else Fault OutOfBounds
           end
       end.

(** The C string held in a buffer: the bytes before the first NUL.  A
    buffer without a NUL has none: reading it runs past its end. *)
Fixpoint c_string (buf : list byte) : option (list byte) :=
  match buf with
  | [] => None
  | c :: buf' => if decide (c = NUL) then Some [] else (c ::.) <$> c_string buf'
  end.

(** [printf("%s", buf)]. *)
Definition printf_s (buf : list byte) : M unit :=
  λ w, match c_string buf with
       | None => Fault OutOfBounds
       | Some str =>
           Ok tt (World (files w) (streams w) (stdout w ++ str)
                        (trace w ++ [EvPrintfS buf]))
       end.

(** [printf(text)] for a format without conversions. *)
Definition printf (text : list byte) : M unit :=
  λ w, Ok tt (World (files w) (streams w) (stdout w ++ text)
                    (trace w ++ [EvPrintf text])).

(** [buf[i] = c]. *)
Definition store (buf : list byte) (i : nat) (c : byte) : M (list byte) :=
  if decide (i < length buf)%nat then ret (<[i := c]> buf) else fail OutOfBounds.

(** ** The program *)

Definition MAX_LINE_LENGTH : nat := 1000.

Definition cannot_open : list byte :=
  String.list_byte_of_string "wcat: cannot open file" ++ [LF].

(** The body of the [while] loop, lines 21-22. *)
Definition loop_body (line : list byte) : M (list byte) :=
  let* line := store line (MAX_LINE_LENGTH - 1) NUL in
  printf_s line ;;;
  ret line.

(** The body with the assignment of line 21 taken out. *)
Definition loop_body_unforced (line : list byte) : M (list byte) :=
  printf_s line ;;;
  ret line.

(** The [while] loop of lines 20-23, over a loop body.  [fuel] bounds the
    number of iterations; the value is the line buffer when the loop
    exits. *)
Fixpoint while_fgets (body : list byte → M (list byte))
    (fuel : nat) (f : handle) (line : list byte) : M (list byte) :=
  match fuel with
  | O => fail OutOfFuel
  | S fuel' =>
      let* r := fgets line (MAX_LINE_LENGTH - 1) f in
      match r with
      | None => ret line
      | Some line =>
          let* line := body line in
          while_fgets body fuel' f line
      end
  end.

(** The loop measure: the number of bytes left on a stream, plus one for
    the read that finds the end of the file. *)
Definition unread (f : handle) : M nat :=
  λ w, match streams w !! f with
       | None => Fault BadStream
       | Some s => Ok (S (length s)) w
       end.

(** The [for] loop of lines 13-26 over [argv[1..argc-1]].  The value is
    [Some code] when the loop was left by [return code], and [None] when
    it ran to its end. *)
Fixpoint for_files (body : list byte → M (list byte))
    (paths : list string) (line : list byte) : M (option Z) :=
  match paths with
  | [] => ret None
  | path :: paths' =>
      let* f := fopen path in
      match f with
      | None =>
          printf cannot_open ;;;
          ret (Some 1)
      | Some f =>
          let* fuel := unread f in
          let* line := while_fgets body fuel f line in
          fclose f ;;;
          for_files body paths' line
      end
  end.

(** [main], over a loop body.  [argc] is the length of [argv]; [junk] is
    what the uninitialised array [line] holds when it is declared. *)
Definition main_with (body : list byte → M (list byte))
    (argv : list string) (junk : list byte) : M Z :=
  let argc := Z.of_nat (length argv) in
  if decide (argc < 2) then ret 0
  else
    let line := junk in
    let* r := for_files body (drop 1 argv) line in
    match r with
    | Some code => ret code
    | None => ret 0
    end.

Definition main : list string → list byte → M Z := main_with loop_body.

(** The program without line 21. *)
Definition main_unforced : list string → list byte → M Z :=
  main_with loop_body_unforced.

(** ** What the program is expected to do, as pure functions *)

(** The bytes of a chunk that [printf("%s")] shows: those before its
    first NUL. *)
Fixpoint before_nul (c : list byte) : list byte :=
  match c with
  | [] => []
  | b :: c' => if decide (b = NUL) then [] else b :: before_nul c'
  end.

(** The successive chunks that [fgets(line, MAX_LINE_LENGTH-1, f)] cuts a
    file into. *)
Fixpoint chunks_upto (fuel : nat) (s : list byte) : list (list byte) :=
  match fuel, s with
  | S fuel', _ :: _ =>
      let '(taken, rest) := fgets_scan (MAX_LINE_LENGTH - 2) s in
      taken :: chunks_upto fuel' rest
  | _, _ => []
  end.

Definition chunks (s : list byte) : list (list byte) :=
  chunks_upto (length s) s.

(** What the loop writes for a file with contents [s]. *)
Definition shown (s : list byte) : list byte :=
  concat (before_nul <$> chunks s).

(** Standard output and the way the [for] loop is left, by the files
    named. *)
Fixpoint expected (fs : gmap string (list byte)) (paths : list string)
    : list byte * option Z :=
  match paths with
  | [] => ([], None)
  | path :: paths' =>
      match fs !! path with
      | None => (cannot_open, Some 1)
      | Some s =>
          let '(out, r) := expected fs paths' in (shown s ++ out, r)
      end
  end.

(** The contents of the files named, when every one of them can be
    opened. *)
Fixpoint read_all (fs : gmap string (list byte)) (paths : list string)
    : option (list (list byte)) :=
  match paths with
  | [] => Some []
  | path :: paths' =>
      match fs !! path, read_all fs paths' with
      | Some s, Some ss => Some (s :: ss)
      | _, _ => None
      end
  end.

(** ** Reading the log *)

(** The paths given to [fopen], in order. *)
Definition opened (t : list event) : list string :=
  omap (λ e, match e with EvOpen p _ => Some p | _ => None end) t.

(** What the calls of [fgets] delivered, in order; [[]] for NULL. *)
Definition reads (t : list event) : list (list byte) :=
  omap (λ e, match e with EvGets _ c => Some c | _ => None end) t.

(** The streams open after a sequence of calls. *)
Definition live_step (L : gset handle) (e : event) : gset handle :=
  match e with
  | EvOpen _ (Some f) => {[f]} ∪ L
  | EvClose f => L ∖ {[f]}
  | _ => L
  end.

Definition live_from (L : gset handle) (t : list event) : gset handle :=
  foldl live_step L t.

Definition live (t : list event) : gset handle := live_from ∅ t.

(** The buffers handed to [printf("%s")], in order. *)
Definition printed_buffers (t : list event) : list (list byte) :=
  omap (λ e, match e with EvPrintfS buf => Some buf | _ => None end) t.

(** The byte strings written by the calls of [printf], in order. *)
Definition writes (t : list event) : list (list byte) :=
  omap (λ e, match e with
             | EvPrintfS buf => c_string buf
             | EvPrintf text => Some text
             | _ => None
             end) t.

(** What [fgets] is expected to deliver over a run: the chunks of each
    file opened, each followed by the NULL at its end. *)
Fixpoint expected_reads (fs : gmap string (list byte)) (paths : list string)
    : list (list byte) :=
  match paths with
  | [] => []
  | path :: paths' =>
      match fs !! path with
      | None => []
      | Some s => chunks s ++ [] :: expected_reads fs paths'
      end
  end.

(** The paths [fopen] is expected to be given: those up to the first that
    cannot be opened. *)
Fixpoint attempted (fs : gmap string (list byte)) (paths : list string)
    : list string :=
  match paths with
  | [] => []
  | path :: paths' =>
      match fs !! path with
      | None => [path]
      | Some _ => path :: attempted fs paths'
      end
  end.

(** The phases of a run, as the calls in the log reveal them: no stream
    open; stream [f] open, about to be read; a chunk of stream [f] in the
    line buffer, about to be printed; stream [f] read to its end; an open
    just failed; the diagnostic is out. *)
Inductive phase : Type :=
| Idle
| Streaming (f : handle)
| Loaded (f : handle)
| Drained (f : handle)
| Failed
| Stopped.

Definition phase_step (ph : phase) (e : event) : option phase :=
  match ph, e with
  | Idle, EvOpen _ (Some f) => Some (Streaming f)
  | Idle, EvOpen _ None => Some Failed
  | Streaming f, EvGets g (_ :: _) =>
      if decide (f = g) then Some (Loaded f) else None
  | Streaming f, EvGets g [] =>
      if decide (f = g) then Some (Drained f) else None
  | Loaded f, EvPrintfS _ => Some (Streaming f)
  | Drained f, EvClose g => if decide (f = g) then Some Idle else None
  | Failed, EvPrintf _ => Some Stopped
  | _, _ => None
  end.

Fixpoint phase_run (ph : phase) (t : list event) : option phase :=
  match t with
  | [] => Some ph
  | e :: t' =>
      match phase_step ph e with
      | Some ph' => phase_run ph' t'
      | None => None
      end
  end.

(** The streams held in a phase. *)
Definition held (ph : phase) : gset handle :=
  match ph with
  | Streaming f | Loaded f | Drained f => {[f]}
  | _ => ∅
  end.

(** A file that is one line: a line terminator can only be its last byte. *)
Definition single_line (s : list byte) : Prop :=
  ∀ i, s !! i = Some LF → S i = length s.

(** ** What an invocation shows *)

(** The exit code and the bytes on standard output, when the run is
    defined. *)
Definition observe (o : outcome Z) : option (Z * list byte) :=
  match o with
  | Ok code w => Some (code, stdout w)
  | Fault _ => None
  end.

Definition run (fs : gmap string (list byte)) (argv : list string)
    (junk : list byte) : option (Z * list byte) :=
  observe (main argv junk (init_world fs)).

Definition run_unforced (fs : gmap string (list byte)) (argv : list string)
    (junk : list byte) : option (Z * list byte) :=
  observe (main_unforced argv junk (init_world fs)).

(** ** The shape of a log *)

(** The calls made by the [while] loop on stream [f], by the chunks read;
    [Q] holds of every buffer handed to [printf]. *)
Inductive loop_trace (Q : list byte → Prop) (f : handle)
    : list (list byte) → list event → Prop :=
| loop_trace_eof : loop_trace Q f [] [EvGets f []]
| loop_trace_chunk c cs buf t :
    Q buf → c_string buf = Some (before_nul c) →
    loop_trace Q f cs t →
    loop_trace Q f (c :: cs) (EvGets f c :: EvPrintfS buf :: t).

(** The calls made by the [for] loop, by the paths named. *)
Inductive run_trace (Q : list byte → Prop) (fs : gmap string (list byte))
    : list string → list event → Prop :=
| run_trace_done : run_trace Q fs [] []
| run_trace_fail path paths :
    fs !! path = None →
    run_trace Q fs (path :: paths) [EvOpen path None; EvPrintf cannot_open]
| run_trace_file path paths s f tl t :
    fs !! path = Some s →
    loop_trace Q f (chunks s) tl →
    run_trace Q fs paths t →
    run_trace Q fs (path :: paths) (EvOpen path (Some f) :: tl ++ EvClose f :: t).

(** The buffers the program hands to [printf]: full size, last byte NUL. *)
Definition terminated (buf : list byte) : Prop :=
  length buf = MAX_LINE_LENGTH ∧ buf !! (MAX_LINE_LENGTH - 1)%nat = Some NUL.

Definition full_size (buf : list byte) : Prop :=
  length buf = MAX_LINE_LENGTH.

(** The log tells the truth about the table of streams: each library call
    keeps the streams that the log says are open equal to those in the
    table. *)
Definition log_agrees (w : world) : Prop :=
  live (trace w) = dom (streams w).

(** ** Files made of lines that fit one read *)

(** A line that one [fgets] of the program delivers whole: not empty, at
    most [MAX_LINE_LENGTH - 2] bytes with its terminator, and no line
    terminator before its last byte. *)
Definition fits_line (l : list byte) : Prop :=
  l ≠ [] ∧ (length l ≤ MAX_LINE_LENGTH - 2)%nat
  ∧ LF ∉ take (pred (length l)) l.

(** The lines of a text: each fits, and each but the last ends with its
    line terminator. *)
Fixpoint text_lines (ls : list (list byte)) : Prop :=
  match ls with
  | [] => True
  | l :: ls' => fits_line l ∧ (ls' = [] ∨ last l = Some LF) ∧ text_lines ls'
  end.

(** The calls of a run that goes well: anything but a failed [fopen] and
    the [printf] of the diagnostic. *)
Definition quiet (e : event) : Prop :=
  match e with
  | EvOpen _ None | EvPrintf _ => False
  | _ => True
  end.

(** ** Sample file systems *)

(** Two one-line files, for [wcat a.txt b.txt]. *)
Definition hello_world : gmap string (list byte) :=
  {[ "a.txt"%string := String.list_byte_of_string "hello" ++ [LF];
     "b.txt"%string := String.list_byte_of_string "world" ++ [LF] ]}.

(** A line of 999 bytes. *)
Definition line_999 : gmap string (list byte) :=
  {[ "long"%string := replicate 999 x61 ]}.

(** A line of 1500 letters and its line terminator. *)
Definition line_1500 : gmap string (list byte) :=
  {[ "long"%string := replicate 1500 x61 ++ [LF] ]}.

(** A file with NUL bytes in two lines. *)
Definition with_nul : gmap string (list byte) :=
  {[ "bin"%string := [x61; x00; x62; LF; x63; x00] ]}.

(** Three lines, the last without its terminator, one holding a NUL. *)
Definition three_lines : gmap string (list byte) :=
  {[ "text"%string := [x61; x62; LF; x63; x00; x64; LF; x65] ]}.

(** An empty file beside a file of one letter. *)
Definition with_empty : gmap string (list byte) :=
  {[ "empty"%string := []; "one"%string := [x61] ]}.

(** * Proofs *)

(** ** One read *)

Section scan.
Implicit Types (m : nat) (s : list byte).

Lemma fgets_scan_app m s : (fgets_scan m s).1 ++ (fgets_scan m s).2 = s.
Proof.
  revert s; induction m as [|m IH]; intros [|c s]; simpl; try done.
  case_decide; [done|].
  specialize (IH s). destruct (fgets_scan m s) as [t r]; simpl in *.
  by rewrite IH.
Qed.

Lemma fgets_scan_length m s : (length (fgets_scan m s).1 ≤ m)%nat.
Proof.
  revert s; induction m as [|m IH]; intros [|c s]; simpl; try lia.
  case_decide; simpl; [lia|].
  specialize (IH s). destruct (fgets_scan m s) as [t r]; simpl in *. lia.
Qed.

Lemma fgets_scan_progress m s : s ≠ [] → (fgets_scan (S m) s).1 ≠ [].
Proof.
  intros Hs. destruct s as [|c s]; [done|]. simpl.
  case_decide; [done|]. by destruct (fgets_scan m s).
Qed.

(** A line terminator ends the chunk. *)
Lemma fgets_scan_lf_last m s i :
  (fgets_scan m s).1 !! i = Some LF → S i = length (fgets_scan m s).1.
Proof.
  revert s i; induction m as [|m IH]; intros [|c s] i; simpl; try done.
  case_decide as Hc.
  - destruct i; simpl; [done|]. by rewrite lookup_nil.
  - specialize (IH s). destruct (fgets_scan m s) as [t r]; simpl in *.
    destruct i as [|i]; simpl.
    + intros [= ->]. done.
    + intros Hi. by rewrite (IH i Hi).
Qed.

(** A chunk ends at the limit, at the end of the file or after a line
    terminator. *)
Lemma fgets_scan_stop m s :
  length (fgets_scan m s).1 = m ∨ (fgets_scan m s).2 = []
  ∨ last (fgets_scan m s).1 = Some LF.
Proof.
  revert s; induction m as [|m IH]; intros [|c s]; simpl; auto.
  case_decide as Hc; [subst; auto|].
  destruct (IH s) as [H|[H|H]]; destruct (fgets_scan m s) as [t r];
    simpl in *; auto.
  right; right. destruct t; [done|]. done.
Qed.

(** Without a line terminator in reach, a chunk is the first [m] bytes. *)
Lemma fgets_scan_take m s :
  LF ∉ take m s → fgets_scan m s = (take m s, drop m s).
Proof.
  revert s; induction m as [|m IH]; intros [|c s]; simpl; try done.
  intros Hnot. apply not_elem_of_cons in Hnot as [Hc Hs].
  case_decide; [done|]. by rewrite (IH s Hs).
Qed.
End scan.

(** ** C strings *)

Section c_strings.
Implicit Types (c buf : list byte).

Lemma c_string_app_nul c buf : c_string (c ++ NUL :: buf) = Some (before_nul c).
Proof.
  induction c as [|b c IH]; simpl; [done|].
  case_decide; [done|]. by rewrite IH.
Qed.

Lemma before_nul_id c : NUL ∉ c → before_nul c = c.
Proof.
  induction c as [|b c IH]; simpl; [done|].
  intros [Hb Hc]%not_elem_of_cons. rewrite decide_False by done.
  by rewrite IH.
Qed.

Lemma before_nul_no_nul c : NUL ∉ before_nul c.
Proof.
  induction c as [|b c IH]; simpl; [by apply not_elem_of_nil|].
  case_decide; [by apply not_elem_of_nil|].
  apply not_elem_of_cons; auto.
Qed.

Lemma before_nul_length c : (length (before_nul c) ≤ length c)%nat.
Proof.
  induction c as [|b c IH]; simpl; [lia|]. case_decide; simpl; lia.
Qed.

Lemma before_nul_short c : NUL ∈ c → (length (before_nul c) < length c)%nat.
Proof.
  induction c as [|b c IH]; simpl; [by intros ?%elem_of_nil|].
  intros [->|Hc]%elem_of_cons.
  - rewrite decide_True by done. simpl; lia.
  - case_decide; simpl; [lia|]. specialize (IH Hc). lia.
Qed.

(** A buffer whose last byte is NUL holds a C string. *)
Lemma c_string_terminated buf i :
  buf !! i = Some NUL → is_Some (c_string buf).
Proof.
  revert i; induction buf as [|b buf IH]; intros i; simpl.
  - by rewrite lookup_nil.
  - case_decide; [eauto|]. destruct i as [|i]; simpl.
    + intros [= ->]. done.
    + intros Hi. destruct (IH i Hi) as [str ->]. simpl. eauto.
Qed.

(** Setting a byte after the first NUL does not change the C string. *)
Lemma c_string_insert_after c buf i b :
  (length c < i)%nat →
  c_string (<[i := b]> (c ++ NUL :: buf)) = Some (before_nul c).
Proof.
  intros Hi.
  replace i with (length c + S (i - S (length c)))%nat by lia.
  rewrite insert_app_r. simpl. apply c_string_app_nul.
Qed.
End c_strings.

(** ** The chunks of a file *)

Section chunking.
Implicit Types (s c : list byte).

Lemma chunks_upto_cons fuel b s :
  chunks_upto (S fuel) (b :: s)
  = (fgets_scan (MAX_LINE_LENGTH - 2) (b :: s)).1
    :: chunks_upto fuel (fgets_scan (MAX_LINE_LENGTH - 2) (b :: s)).2.
Proof.
  cbn [chunks_upto]. by destruct (fgets_scan _ (b :: s)).
Qed.

Lemma fgets_scan_shrinks s :
  s ≠ [] →
  (length (fgets_scan (MAX_LINE_LENGTH - 2) s).2 < length s)%nat.
Proof.
  intros Hs.
  pose proof (fgets_scan_app (MAX_LINE_LENGTH - 2) s) as Happ.
  pose proof (fgets_scan_progress 997 s Hs) as Hne.
  change (S 997) with (MAX_LINE_LENGTH - 2)%nat in Hne.
  destruct (fgets_scan _ s) as [t r]; simpl in *.
  rewrite <- Happ, length_app. destruct t; [done|]. simpl; lia.
Qed.

Lemma chunks_upto_fuel n fuel s :
  (length s ≤ n)%nat → (n ≤ fuel)%nat → chunks_upto fuel s = chunks_upto n s.
Proof.
  revert fuel s; induction n as [|n IH]; intros fuel s Hs Hn.
  - destruct s; [|simpl in Hs; lia]. by destruct fuel.
  - destruct fuel as [|fuel]; [lia|].
    destruct s as [|b s]; [done|].
    rewrite !chunks_upto_cons. f_equal.
    pose proof (fgets_scan_shrinks (b :: s)) as Hlt.
    specialize (Hlt ltac:(done)). apply IH; [|lia]. cbn [length] in *. lia.
Qed.

Lemma chunks_upto_enough fuel s :
  (length s ≤ fuel)%nat → chunks_upto fuel s = chunks s.
Proof. intros. by apply chunks_upto_fuel. Qed.

Lemma chunks_nil : chunks [] = [].
Proof. done. Qed.

Lemma chunks_cons s :
  s ≠ [] →
  chunks s = (fgets_scan (MAX_LINE_LENGTH - 2) s).1
             :: chunks (fgets_scan (MAX_LINE_LENGTH - 2) s).2.
Proof.
  intros Hs. pose proof (fgets_scan_shrinks s Hs) as Hlt.
  destruct s as [|b s]; [done|].
  unfold chunks at 1. cbn [length]. rewrite chunks_upto_cons. f_equal.
  apply chunks_upto_enough. cbn [length] in Hlt. lia.
Qed.

(** Induction along the reads of a file. *)
Lemma chunks_ind (P : list byte → list (list byte) → Prop) :
  P [] [] →
  (∀ s c rest,
      s ≠ [] → fgets_scan (MAX_LINE_LENGTH - 2) s = (c, rest) →
      P rest (chunks rest) → P s (c :: chunks rest)) →
  ∀ s, P s (chunks s).
Proof.
  intros Hnil Hcons s.
  remember (length s) as n eqn:Hn. revert s Hn.
  induction n as [n IH] using lt_wf_ind. intros s ->.
  destruct (decide (s = [])) as [->|Hs]; [done|].
  rewrite (chunks_cons s Hs).
  pose proof (fgets_scan_shrinks s Hs) as Hlt.
  destruct (fgets_scan _ s) as [c rest] eqn:E; simpl in *.
  apply (Hcons s c rest Hs E). by apply (IH (length rest)).
Qed.

Lemma concat_chunks s : concat (chunks s) = s.
Proof.
  revert s. apply (chunks_ind (λ s cs, concat cs = s)); [done|].
  intros s c rest Hs E IH.
  pose proof (fgets_scan_app (MAX_LINE_LENGTH - 2) s) as Happ.
  rewrite E in Happ; simpl in *. by rewrite IH.
Qed.

Lemma chunks_bounded s :
  Forall (λ c, (0 < length c ≤ MAX_LINE_LENGTH - 2)%nat) (chunks s).
Proof.
  revert s. apply (chunks_ind (λ _ cs, Forall _ cs)); [done|].
  intros s c rest Hs E IH. constructor; [|done].
  pose proof (fgets_scan_length (MAX_LINE_LENGTH - 2) s) as Hlen.
  pose proof (fgets_scan_progress 997 s Hs) as Hne.
  change (S 997) with (MAX_LINE_LENGTH - 2)%nat in Hne.
  rewrite E in Hlen, Hne; cbn [fst] in *. destruct c; [done|].
  cbn [length] in *; lia.
Qed.

Lemma chunks_lf_last s :
  Forall (λ c, ∀ i, c !! i = Some LF → S i = length c) (chunks s).
Proof.
  revert s. apply (chunks_ind (λ _ cs, Forall _ cs)); [done|].
  intros s c rest Hs E IH. constructor; [|done].
  intros i Hi. pose proof (fgets_scan_lf_last (MAX_LINE_LENGTH - 2) s i) as Hlf.
  rewrite E in Hlf. by apply Hlf.
Qed.

Lemma chunks_first s :
  s ≠ [] → LF ∉ take (MAX_LINE_LENGTH - 2) s →
  chunks s = take (MAX_LINE_LENGTH - 2) s
             :: chunks (drop (MAX_LINE_LENGTH - 2) s).
Proof.
  intros Hs Hlf. rewrite (chunks_cons s Hs).
  by rewrite (fgets_scan_take _ _ Hlf).
Qed.

(** A file longer than one read takes several. *)
Lemma chunks_many s :
  (MAX_LINE_LENGTH - 2 < length s)%nat → (2 ≤ length (chunks s))%nat.
Proof.
  intros Hlen.
  pose proof (concat_chunks s) as Hcat.
  pose proof (chunks_bounded s) as Hb.
  destruct (chunks s) as [|c1 [|c2 cs]]; cbn [concat length] in *; [..|lia].
  - subst s. cbn [length] in Hlen. lia.
  - rewrite app_nil_r in Hcat. subst c1.
    apply Forall_cons in Hb as [Hb _]. lia.
Qed.

Lemma shown_nil : shown [] = [].
Proof. done. Qed.

Lemma shown_cons s :
  s ≠ [] →
  shown s = before_nul (fgets_scan (MAX_LINE_LENGTH - 2) s).1
            ++ shown (fgets_scan (MAX_LINE_LENGTH - 2) s).2.
Proof. intros Hs. unfold shown. by rewrite (chunks_cons s Hs). Qed.

Lemma shown_chunks_id s : NUL ∉ s → before_nul <$> chunks s = chunks s.
Proof.
  revert s. apply (chunks_ind (λ s cs, NUL ∉ s → before_nul <$> cs = cs));
    [done|].
  intros s c rest Hs E IH Hnul.
  pose proof (fgets_scan_app (MAX_LINE_LENGTH - 2) s) as Happ.
  rewrite E in Happ; cbn [fst snd] in Happ. subst s.
  apply not_elem_of_app in Hnul as [Hc Hrest].
  rewrite fmap_cons, (before_nul_id c Hc). f_equal. by apply IH.
Qed.

(** A file without NUL bytes is shown as it is. *)
Lemma shown_id s : NUL ∉ s → shown s = s.
Proof.
  intros Hnul. unfold shown. rewrite (shown_chunks_id s Hnul).
  apply concat_chunks.
Qed.

Lemma shown_no_nul s : NUL ∉ shown s.
Proof.
  unfold shown. revert s.
  apply (chunks_ind (λ _ cs, NUL ∉ concat (before_nul <$> cs))).
  - apply not_elem_of_nil.
  - intros s c rest Hs E IH. rewrite fmap_cons. cbn [concat].
    apply not_elem_of_app; split; [apply before_nul_no_nul | done].
Qed.

(** A file with a NUL byte loses bytes. *)
Lemma shown_length s : NUL ∈ s → (length (shown s) < length s)%nat.
Proof.
  unfold shown. revert s.
  apply (chunks_ind (λ s cs,
    NUL ∈ s → (length (concat (before_nul <$> cs)) < length s)%nat));
    [by intros ?%elem_of_nil|].
  intros s c rest Hs E IH.
  pose proof (fgets_scan_app (MAX_LINE_LENGTH - 2) s) as Happ.
  rewrite E in Happ; cbn [fst snd] in Happ. subst s.
  rewrite fmap_cons. cbn [concat]. rewrite !length_app.
  intros [Hc|Hrest]%elem_of_app.
  - pose proof (before_nul_short c Hc).
    destruct (decide (NUL ∈ rest)) as [Hr|Hr].
    + specialize (IH Hr). lia.
    + rewrite (shown_chunks_id rest Hr), concat_chunks. lia.
  - specialize (IH Hrest). pose proof (before_nul_length c). lia.
Qed.
End chunking.

(** ** The library calls on the line buffer *)

Section calls.
Implicit Types (buf s c : list byte) (f : handle) (w : world).

Lemma fgets_eof buf m f w :
  streams w !! f = Some [] →
  fgets buf (S (S m)) f w
  = Ok None (World (files w) (streams w) (stdout w) (trace w ++ [EvGets f []])).
Proof. intros Hf. unfold fgets. by rewrite Hf. Qed.

Lemma fgets_data buf m f w s :
  streams w !! f = Some s → s ≠ [] → (S m < length buf)%nat →
  fgets buf (S (S m)) f w
  = Ok (Some ((fgets_scan (S m) s).1
              ++ NUL :: drop (S (length (fgets_scan (S m) s).1)) buf))
       (World (files w) (<[f := (fgets_scan (S m) s).2]> (streams w)) (stdout w)
              (trace w ++ [EvGets f (fgets_scan (S m) s).1])).
Proof.
  intros Hf Hs Hbuf. unfold fgets. rewrite Hf.
  pose proof (fgets_scan_length (S m) s) as Hlen.
  destruct s as [|b s]; [done|].
  destruct (fgets_scan (S m) (b :: s)) as [c rest]; cbn [fst snd] in *.
  rewrite decide_True by lia. done.
Qed.

(** Whatever [fgets] delivers, the buffer keeps its size and holds a NUL
    before the position of its last byte. *)
Lemma fgets_buffer buf n f w line w' :
  (n ≤ length buf)%nat →
  fgets buf n f w = Ok (Some line) w' →
  length line = length buf
  ∧ ∃ i, (i < n)%nat ∧ line !! i = Some NUL.
Proof.
  intros Hn. unfold fgets. destruct (streams w !! f) as [s|]; [|done].
  destruct n as [|m]; [done|].
  assert (
    (let '(taken, rest) := fgets_scan m s in
     if decide (length taken < length buf)%nat
     then Ok (Some (taken ++ NUL :: drop (S (length taken)) buf))
            (World (files w) (<[f:=rest]> (streams w)) (stdout w)
               (trace w ++ [EvGets f taken]))
     else Fault OutOfBounds) = Ok (Some line) w' →
    length line = length buf ∧ ∃ i, (i < S m)%nat ∧ line !! i = Some NUL)
    as Hdata.
  { pose proof (fgets_scan_length m s) as Hlen.
    destruct (fgets_scan m s) as [c rest]; cbn [fst] in Hlen.
    case_decide; [|done]. intros [= <- _]. split.
    - rewrite length_app. cbn [length]. rewrite length_drop. lia.
    - exists (length c). split; [lia|].
      by rewrite lookup_app_r, Nat.sub_diag by lia. }
  destruct m as [|m]; [by apply Hdata|].
  destruct s as [|b s]; [done|]. by apply Hdata.
Qed.

(** The read the program makes, [fgets(line, MAX_LINE_LENGTH-1, f)], on a
    buffer of [MAX_LINE_LENGTH] bytes: NULL at the end of the file;
    otherwise it takes a chunk [c] off the front of the stream, of at most
    [MAX_LINE_LENGTH - 2] bytes, which stops at that limit, at the end of
    the file or after a line terminator, and leaves [c] and a NUL at the
    front of the buffer. *)
Lemma fgets_line buf f w s r w' :
  length buf = MAX_LINE_LENGTH →
  streams w !! f = Some s →
  fgets buf (MAX_LINE_LENGTH - 1) f w = Ok r w' →
  match r with
  | None => s = [] ∧ streams w' = streams w
  | Some line =>
      ∃ c rest,
        s = c ++ rest ∧ c ≠ []
        ∧ (length c ≤ MAX_LINE_LENGTH - 2)%nat
        ∧ (length c = (MAX_LINE_LENGTH - 2)%nat ∨ rest = [] ∨ last c = Some LF)
        ∧ (∀ i, c !! i = Some LF → S i = length c)
        ∧ line = c ++ NUL :: drop (S (length c)) buf
        ∧ streams w' = <[f := rest]> (streams w)
  end.
Proof.
  intros Hbuf Hf. change (MAX_LINE_LENGTH - 1)%nat with (S (S 997)).
  destruct (decide (s = [])) as [->|Hs].
  - rewrite (fgets_eof _ _ _ _ Hf). by intros [= <- <-].
  - rewrite (fgets_data _ _ _ _ _ Hf Hs) by (rewrite Hbuf; unfold MAX_LINE_LENGTH; lia).
    change (S 997) with (MAX_LINE_LENGTH - 2)%nat.
    pose proof (fgets_scan_app (MAX_LINE_LENGTH - 2) s) as Happ.
    pose proof (fgets_scan_length (MAX_LINE_LENGTH - 2) s) as Hlen.
    pose proof (fgets_scan_stop (MAX_LINE_LENGTH - 2) s) as Hstop.
    pose proof (fgets_scan_lf_last (MAX_LINE_LENGTH - 2) s) as Hlf.
    pose proof (fgets_scan_progress 997 s Hs) as Hne.
    change (S 997) with (MAX_LINE_LENGTH - 2)%nat in Hne.
    destruct (fgets_scan (MAX_LINE_LENGTH - 2) s) as [c rest]; cbn [fst snd] in *.
    intros [= <- <-]. exists c, rest. by split_and!.
Qed.

Lemma store_ok buf i b w :
  (i < length buf)%nat → store buf i b w = Ok (<[i := b]> buf) w.
Proof. intros Hi. unfold store. by rewrite decide_True. Qed.
End calls.

(** ** The loops *)

Section loops.
Context (body : list byte → M (list byte)) (Q : list byte → Prop).

(** What the proofs need of a loop body: handed a buffer that holds the
    chunk [c] and a NUL, it prints the chunk up to its first NUL byte. *)
Hypothesis body_prints : ∀ c rest w,
  (length c ≤ MAX_LINE_LENGTH - 2)%nat →
  length (c ++ NUL :: rest) = MAX_LINE_LENGTH →
  ∃ line,
    body (c ++ NUL :: rest) w
    = Ok line (World (files w) (streams w) (stdout w ++ before_nul c)
                     (trace w ++ [EvPrintfS line]))
    ∧ length line = MAX_LINE_LENGTH
    ∧ Q line
    ∧ c_string line = Some (before_nul c).

Lemma while_fgets_spec fuel f s line w :
  streams w !! f = Some s →
  (length s < fuel)%nat →
  length line = MAX_LINE_LENGTH →
  ∃ line' t,
    while_fgets body fuel f line w
    = Ok line' (World (files w) (<[f := []]> (streams w))
                      (stdout w ++ shown s) (trace w ++ t))
    ∧ length line' = MAX_LINE_LENGTH
    ∧ loop_trace Q f (chunks s) t.
Proof.
  revert s line w; induction fuel as [|fuel IH]; intros s line w Hf Hfuel Hline;
    [lia|].
  cbn [while_fgets]. unfold bind at 1.
  change (MAX_LINE_LENGTH - 1)%nat with (S (S 997)).
  destruct (decide (s = [])) as [->|Hs].
  - rewrite (fgets_eof _ _ _ _ Hf). exists line, [EvGets f []].
    rewrite shown_nil, app_nil_r, (insert_id _ _ _ Hf).
    split_and!; [done|done|constructor].
  - rewrite (fgets_data _ _ _ _ _ Hf Hs) by (rewrite Hline; unfold MAX_LINE_LENGTH; lia).
    change (S 997) with (MAX_LINE_LENGTH - 2)%nat.
    pose proof (fgets_scan_length (MAX_LINE_LENGTH - 2) s) as Hlen.
    pose proof (fgets_scan_shrinks s Hs) as Hlt.
    rewrite (chunks_cons s Hs), (shown_cons s Hs).
    destruct (fgets_scan (MAX_LINE_LENGTH - 2) s) as [c rest] eqn:E;
      cbn [fst snd] in *.
    unfold bind at 1.
    edestruct (body_prints c (drop (S (length c)) line)) as (line1 & -> & Hl1 & HQ & Hstr);
      [done| |].
    { rewrite length_app. cbn [length]. rewrite length_drop.
      rewrite Hline. unfold MAX_LINE_LENGTH in *. lia. }
    edestruct (IH rest line1) as (line' & t & -> & Hl' & Ht); [..|].
    { cbn [streams]. apply lookup_insert_eq. }
    { lia. }
    { done. }
    exists line', (EvGets f c :: EvPrintfS line1 :: t). cbn [files streams stdout trace].
    rewrite insert_insert_eq, <- !app_assoc. split_and!; [done|done|].
    by constructor.
Qed.

Lemma for_files_spec paths line w :
  streams w = ∅ →
  length line = MAX_LINE_LENGTH →
  ∃ t,
    for_files body paths line w
    = Ok (expected (files w) paths).2
         (World (files w) ∅ (stdout w ++ (expected (files w) paths).1)
                (trace w ++ t))
    ∧ run_trace Q (files w) paths t.
Proof.
  revert line w; induction paths as [|path paths IH]; intros line w Hw Hline.
  - exists []. destruct w as [fs st out tr]; simpl in *; subst.
    rewrite !app_nil_r. split; [done|constructor].
  - cbn [for_files expected]. unfold bind at 1, fopen.
    destruct (files w !! path) as [s|] eqn:Hpath.
    + set (f := fresh (dom (streams w))).
      unfold bind at 1, unread. cbn [streams]. rewrite lookup_insert_eq.
      unfold bind at 1.
      edestruct (while_fgets_spec (S (length s)) f s line) as (line' & tl & -> & Hl' & Htl);
        [..|].
      { cbn [streams]. apply lookup_insert_eq. }
      { lia. }
      { done. }
      cbn [files streams stdout trace].
      unfold bind at 1, fclose. cbn [files streams stdout trace].
      rewrite lookup_insert_eq, delete_insert_eq, delete_insert_eq, Hw, delete_empty.
      edestruct (IH line') as (t & -> & Ht); [done|done|].
      cbn [files streams stdout trace].
      destruct (expected (files w) paths) as [out r]; cbn [fst snd].
      exists (EvOpen path (Some f) :: tl ++ EvClose f :: t).
      rewrite <- !app_assoc. split; [done|]. by econstructor.
    + unfold bind at 1, printf, ret. cbn [files streams stdout trace fst snd].
      exists [EvOpen path None; EvPrintf cannot_open].
      rewrite Hw, <- !app_assoc. split; [done|]. by constructor.
Qed.

Lemma main_with_spec fs argv junk :
  length junk = MAX_LINE_LENGTH →
  ∃ t,
    main_with body argv junk (init_world fs)
    = Ok (default 0 (expected fs (drop 1 argv)).2)
         (World fs ∅ (expected fs (drop 1 argv)).1 t)
    ∧ run_trace Q fs (drop 1 argv) t.
Proof.
  intros Hjunk. unfold main_with. case_decide as Hargc.
  - assert (drop 1 argv = []) as ->.
    { destruct argv as [|? [|? ?]]; [done|done|]. cbn [length] in Hargc. lia. }
    exists []. split; [done|constructor].
  - unfold bind.
    edestruct (for_files_spec (drop 1 argv) junk (init_world fs)) as (t & -> & Ht);
      [done|done|].
    cbn [files streams stdout trace init_world app].
    exists t. split; [|done].
    by destruct (expected fs (drop 1 argv)) as [out [code|]].
Qed.
End loops.

(** ** The two loop bodies *)

Lemma loop_body_prints c rest w :
  (length c ≤ MAX_LINE_LENGTH - 2)%nat →
  length (c ++ NUL :: rest) = MAX_LINE_LENGTH →
  ∃ line,
    loop_body (c ++ NUL :: rest) w
    = Ok line (World (files w) (streams w) (stdout w ++ before_nul c)
                     (trace w ++ [EvPrintfS line]))
    ∧ length line = MAX_LINE_LENGTH
    ∧ terminated line
    ∧ c_string line = Some (before_nul c).
Proof.
  intros Hc Hlen. exists (<[(MAX_LINE_LENGTH - 1)%nat := NUL]> (c ++ NUL :: rest)).
  assert (MAX_LINE_LENGTH - 1 < length (c ++ NUL :: rest))%nat as Hi
    by (rewrite Hlen; unfold MAX_LINE_LENGTH; lia).
  assert (c_string (<[(MAX_LINE_LENGTH - 1)%nat := NUL]> (c ++ NUL :: rest))
          = Some (before_nul c)) as Hstr
    by (apply c_string_insert_after; unfold MAX_LINE_LENGTH in *; lia).
  unfold loop_body, bind. rewrite (store_ok _ _ _ _ Hi).
  unfold printf_s. rewrite Hstr. unfold ret.
  split_and!; [done| by rewrite length_insert | | done].
  split; [by rewrite length_insert | by apply list_lookup_insert_eq].
Qed.

Lemma loop_body_unforced_prints c rest w :
  (length c ≤ MAX_LINE_LENGTH - 2)%nat →
  length (c ++ NUL :: rest) = MAX_LINE_LENGTH →
  ∃ line,
    loop_body_unforced (c ++ NUL :: rest) w
    = Ok line (World (files w) (streams w) (stdout w ++ before_nul c)
                     (trace w ++ [EvPrintfS line]))
    ∧ length line = MAX_LINE_LENGTH
    ∧ full_size line
    ∧ c_string line = Some (before_nul c).
Proof.
  intros Hc Hlen. exists (c ++ NUL :: rest).
  unfold loop_body_unforced, bind, printf_s. rewrite c_string_app_nul.
  by split_and!.
Qed.

(** The program, as a function of the files and the arguments. *)
Lemma main_spec fs argv junk :
  length junk = MAX_LINE_LENGTH →
  ∃ t,
    main argv junk (init_world fs)
    = Ok (default 0 (expected fs (drop 1 argv)).2)
         (World fs ∅ (expected fs (drop 1 argv)).1 t)
    ∧ run_trace terminated fs (drop 1 argv) t.
Proof. apply main_with_spec, loop_body_prints. Qed.

Lemma main_unforced_spec fs argv junk :
  length junk = MAX_LINE_LENGTH →
  ∃ t,
    main_unforced argv junk (init_world fs)
    = Ok (default 0 (expected fs (drop 1 argv)).2)
         (World fs ∅ (expected fs (drop 1 argv)).1 t)
    ∧ run_trace full_size fs (drop 1 argv) t.
Proof. apply main_with_spec, loop_body_unforced_prints. Qed.

(** ** The expected output, by the shape of the argument list *)

Section expectations.
Context (fs : gmap string (list byte)).
Implicit Types (paths : list string) (cs : list (list byte)).

Lemma expected_all paths cs :
  read_all fs paths = Some cs →
  expected fs paths = (concat (shown <$> cs), None).
Proof.
  revert cs; induction paths as [|p paths IH]; intros cs; simpl.
  - by intros [= <-].
  - destruct (fs !! p) as [s|]; [|done].
    destruct (read_all fs paths) as [ss|]; [|done]. intros [= <-].
    by rewrite (IH ss).
Qed.

Lemma expected_first_failure oks bad rest cs :
  read_all fs oks = Some cs → fs !! bad = None →
  expected fs (oks ++ bad :: rest)
  = (concat (shown <$> cs) ++ cannot_open, Some 1).
Proof.
  intros Hoks Hbad. revert cs Hoks; induction oks as [|p oks IH]; intros cs; simpl.
  - intros [= <-]. by rewrite Hbad.
  - destruct (fs !! p) as [s|]; [|done].
    destruct (read_all fs oks) as [ss|]; [|done]. intros [= <-].
    rewrite (IH ss) by done. simpl. by rewrite app_assoc.
Qed.

Lemma attempted_first_failure oks bad rest cs :
  read_all fs oks = Some cs → fs !! bad = None →
  attempted fs (oks ++ bad :: rest) = oks ++ [bad].
Proof.
  intros Hoks Hbad. revert cs Hoks; induction oks as [|p oks IH]; intros cs; simpl.
  - by rewrite Hbad.
  - destruct (fs !! p) as [s|]; [|done].
    destruct (read_all fs oks) as [ss|]; [|done]. intros _.
    by rewrite (IH ss).
Qed.

Lemma shown_all_id cs : Forall (λ c, NUL ∉ c) cs → shown <$> cs = cs.
Proof.
  induction 1 as [|c cs Hc _ IH]; [done|].
  by rewrite fmap_cons, (shown_id c Hc), IH.
Qed.
End expectations.

(** ** Reading the log of a run *)

Section logs.
Context (Q : list byte → Prop) (fs : gmap string (list byte)).
Implicit Types (t : list event) (f : handle) (cs : list (list byte)).

Lemma loop_trace_opened f cs t : loop_trace Q f cs t → opened t = [].
Proof. induction 1; done. Qed.

Lemma loop_trace_reads f cs t : loop_trace Q f cs t → reads t = cs ++ [[]].
Proof. induction 1 as [|c cs buf t _ _ _ IH]; [done|]. simpl. by rewrite <- IH. Qed.

Lemma loop_trace_printed f cs t :
  loop_trace Q f cs t → Forall Q (printed_buffers t).
Proof. induction 1; [constructor|]. by constructor. Qed.

Lemma loop_trace_writes f cs t :
  loop_trace Q f cs t → writes t = before_nul <$> cs.
Proof.
  induction 1 as [|c cs buf t _ Hstr _ IH]; [done|].
  unfold writes in *. simpl. rewrite Hstr. f_equal. exact IH.
Qed.

Lemma loop_trace_gets f cs t g c :
  loop_trace Q f cs t → EvGets g c ∈ t → g = f.
Proof.
  induction 1 as [|c' cs buf t _ _ _ IH].
  - by intros [= ->]%list_elem_of_singleton.
  - intros [[= -> _]|[[=]|Hin]%elem_of_cons]%elem_of_cons; auto.
Qed.

Lemma opened_app t1 t2 : opened (t1 ++ t2) = opened t1 ++ opened t2.
Proof. apply omap_app. Qed.

Lemma reads_app t1 t2 : reads (t1 ++ t2) = reads t1 ++ reads t2.
Proof. apply omap_app. Qed.

Lemma printed_buffers_app t1 t2 :
  printed_buffers (t1 ++ t2) = printed_buffers t1 ++ printed_buffers t2.
Proof. apply omap_app. Qed.

Lemma writes_app t1 t2 : writes (t1 ++ t2) = writes t1 ++ writes t2.
Proof. apply omap_app. Qed.

Lemma run_trace_opened paths t :
  run_trace Q fs paths t → opened t = attempted fs paths.
Proof.
  induction 1 as [|p paths Hp|p paths s f tl t Hp Htl _ IH].
  - done.
  - simpl. by rewrite Hp.
  - cbn [attempted expected_reads].
    change (EvOpen p (Some f) :: tl ++ EvClose f :: t)
      with ([EvOpen p (Some f)] ++ tl ++ [EvClose f] ++ t).
    rewrite !opened_app, IH, (loop_trace_opened _ _ _ Htl), Hp. done.
Qed.

Lemma run_trace_reads paths t :
  run_trace Q fs paths t → reads t = expected_reads fs paths.
Proof.
  induction 1 as [|p paths Hp|p paths s f tl t Hp Htl _ IH].
  - done.
  - simpl. by rewrite Hp.
  - cbn [attempted expected_reads].
    change (EvOpen p (Some f) :: tl ++ EvClose f :: t)
      with ([EvOpen p (Some f)] ++ tl ++ [EvClose f] ++ t).
    rewrite !reads_app, IH, (loop_trace_reads _ _ _ Htl), Hp.
    simpl. by rewrite <- app_assoc.
Qed.

Lemma run_trace_printed paths t :
  run_trace Q fs paths t → Forall Q (printed_buffers t).
Proof.
  induction 1 as [|p paths Hp|p paths s f tl t Hp Htl _ IH].
  - constructor.
  - constructor.
  - change (EvOpen p (Some f) :: tl ++ EvClose f :: t)
      with ([EvOpen p (Some f)] ++ tl ++ [EvClose f] ++ t).
    rewrite !printed_buffers_app. simpl. apply Forall_app. split; [|done].
    by apply (loop_trace_printed f (chunks s)).
Qed.

(** Every read is from a stream that an [fopen] of the run returned, for
    a path that can be opened. *)
Lemma run_trace_gets paths t g c :
  run_trace Q fs paths t → EvGets g c ∈ t →
  ∃ p, is_Some (fs !! p) ∧ EvOpen p (Some g) ∈ t.
Proof.
  induction 1 as [|p paths Hp|p paths s f tl t Hp Htl _ IH].
  - by intros ?%elem_of_nil.
  - intros [[=]|[[=]|[]%elem_of_nil]%elem_of_cons]%elem_of_cons.
  - intros [[=]|[Hin|[[=]|Hin]%elem_of_cons]%elem_of_app]%elem_of_cons.
    + rewrite (loop_trace_gets _ _ _ _ _ Htl Hin). exists p. split; [eauto|].
      apply elem_of_cons; auto.
    + destruct (IH Hin) as (p' & Hp' & Hopen). exists p'. split; [done|].
      apply elem_of_cons; right. apply elem_of_app; right.
      apply elem_of_cons; auto.
Qed.

Lemma opened_elem t p r : EvOpen p r ∈ t → p ∈ opened t.
Proof.
  intros Hin. apply list_elem_of_omap. by exists (EvOpen p r).
Qed.

Lemma expected_reads_bounded paths :
  Forall (λ c, (length c ≤ MAX_LINE_LENGTH - 2)%nat
               ∧ ∀ i, c !! i = Some LF → S i = length c)
         (expected_reads fs paths).
Proof.
  induction paths as [|p paths IH]; cbn [expected_reads]; [constructor|].
  destruct (fs !! p) as [s|]; [|constructor].
  apply Forall_app; split.
  - pose proof (chunks_bounded s) as Hb. pose proof (chunks_lf_last s) as Hlf.
    induction Hb as [|c cs Hc _ IHb]; [constructor|].
    apply Forall_cons in Hlf as [Hlf1 Hlf]. constructor; [|by apply IHb].
    split; [lia|done].
  - constructor; [|done]. split; [cbn [length]; lia|].
    intros i. by rewrite lookup_nil.
Qed.
End logs.

(** ** The phases of a run *)

Section phases.
Implicit Types (ph : phase) (t : list event) (f : handle).

Lemma phase_run_app ph t1 t2 :
  phase_run ph (t1 ++ t2) = phase_run ph t1 ≫= λ ph', phase_run ph' t2.
Proof.
  revert ph; induction t1 as [|e t1 IH]; intros ph; simpl; [done|].
  destruct (phase_step ph e); [apply IH|done].
Qed.

Lemma held_size ph : (size (held ph) ≤ 1)%nat.
Proof.
  destruct ph; cbn [held]; rewrite ?size_empty, ?size_singleton; lia.
Qed.

(** The streams that the log says are open are those the phase holds. *)
Lemma phase_step_live ph e ph' :
  phase_step ph e = Some ph' → live_step (held ph) e = held ph'.
Proof.
  destruct ph, e as [p [g|]|g [|b c]|buf|text|g]; cbn [phase_step]; try done;
    try (destruct (decide _) as [->|]; [|done]);
    intros Hph; simplify_eq; cbn [held live_step];
    rewrite ?union_empty_r_L, ?difference_diag_L; done.
Qed.

Lemma phase_run_live ph t ph' :
  phase_run ph t = Some ph' → live_from (held ph) t = held ph'.
Proof.
  revert ph; induction t as [|e t IH]; intros ph; cbn [phase_run].
  - by intros [= ->].
  - destruct (phase_step ph e) as [ph1|] eqn:E; [|done]. intros Hrun.
    unfold live_from in *. cbn [foldl].
    rewrite (phase_step_live _ _ _ E). by apply IH.
Qed.

Lemma phase_run_prefix ph t1 t2 ph' :
  phase_run ph (t1 ++ t2) = Some ph' →
  ∃ ph1, phase_run ph t1 = Some ph1 ∧ phase_run ph1 t2 = Some ph'.
Proof.
  rewrite phase_run_app. destruct (phase_run ph t1) as [ph1|]; [|done].
  simpl. eauto.
Qed.

(** A stream is only ever read to its end by an [fgets] that returns
    NULL. *)
Lemma phase_run_drained t f :
  phase_run Idle t = Some (Drained f) → ∃ t0, t = t0 ++ [EvGets f []].
Proof.
  destruct t as [|e t _] using rev_ind; [done|].
  intros (ph1 & _ & Hstep)%phase_run_prefix. exists t. f_equal.
  simpl in Hstep. destruct (phase_step ph1 e) as [ph2|] eqn:E; [|done].
  injection Hstep as ->.
  destruct ph1, e as [p [g|]|g [|b c]|buf|text|g]; simpl in E; try done;
    case_decide; by simplify_eq.
Qed.

Lemma loop_trace_phase Q f cs t :
  loop_trace Q f cs t → Forall (λ c, c ≠ []) cs →
  phase_run (Streaming f) t = Some (Drained f).
Proof.
  induction 1 as [|c cs buf t _ _ _ IH]; simpl.
  - by rewrite decide_True.
  - intros [Hc Hcs]%Forall_cons. destruct c; [done|].
    rewrite decide_True by done. simpl. by apply IH.
Qed.

Lemma run_trace_phase Q fs paths t :
  run_trace Q fs paths t →
  phase_run Idle t = Some Idle ∨ phase_run Idle t = Some Stopped.
Proof.
  induction 1 as [|p paths Hp|p paths s f tl t Hp Htl _ IH]; simpl; auto.
  rewrite phase_run_app.
  rewrite (loop_trace_phase _ _ _ _ Htl); [simpl; by rewrite decide_True|].
  eapply Forall_impl; [apply chunks_bounded|]. simpl.
  intros [|] ?; [simpl in *; lia|done].
Qed.

(** Cut anywhere, the log of a run has led to a phase that holds the
    streams the log says are open, and goes on from it to the end. *)
Lemma run_trace_split Q fs paths t t1 t2 :
  run_trace Q fs paths t → t = t1 ++ t2 →
  ∃ ph1 ph,
    phase_run Idle t1 = Some ph1 ∧ live t1 = held ph1
    ∧ phase_run ph1 t2 = Some ph ∧ (ph = Idle ∨ ph = Stopped).
Proof.
  intros Ht ->.
  assert (∃ ph, phase_run Idle (t1 ++ t2) = Some ph ∧ (ph = Idle ∨ ph = Stopped))
    as (ph & Hrun & Hph).
  { destruct (run_trace_phase _ _ _ _ Ht) as [H|H]; eauto. }
  destruct (phase_run_prefix _ _ _ _ Hrun) as (ph1 & Hrun1 & Hrun2).
  exists ph1, ph. split_and!; [done| |done|done].
  apply (phase_run_live Idle t1 ph1 Hrun1).
Qed.
End phases.

(** * The claims *)

(** ** C1: concatenation *)

(** C1, as the code has it.  When every file named can be opened and
    none of them contains a NUL byte, the program returns exit code 0 and
    standard output is the concatenation of the files' contents, in
    argument order, with nothing added and nothing removed. *)
Theorem wcat_concatenates fs argv junk cs :
  length junk = MAX_LINE_LENGTH →
  read_all fs (drop 1 argv) = Some cs →
  Forall (λ c, NUL ∉ c) cs →
  run fs argv junk = Some (0, concat cs).
Proof.
  intros Hjunk Hall Hnul. unfold run.
  destruct (main_spec fs argv junk Hjunk) as (t & -> & _).
  rewrite (expected_all fs _ _ Hall), (shown_all_id _ Hnul). done.
Qed.

Lemma wcat_concatenates_witness :
  run hello_world ["wcat"; "a.txt"; "b.txt"]%string (replicate 1000 x2a)
  = Some (0, String.list_byte_of_string "hello" ++ [LF]
             ++ String.list_byte_of_string "world" ++ [LF]).
Proof.
  apply (wcat_concatenates hello_world ["wcat"; "a.txt"; "b.txt"]%string
           (replicate 1000 x2a)
           [String.list_byte_of_string "hello" ++ [LF];
            String.list_byte_of_string "world" ++ [LF]]).
  - reflexivity.
  - vm_compute. reflexivity.
  - apply (bool_decide_unpack _). vm_compute. exact I.
Defined.

(** C1, as stated, fails on a file that holds a NUL byte: of the three
    bytes [a NUL b] only the first reaches standard output. *)
Lemma wcat_concatenates_counterexample :
  let fs : gmap string (list byte) := {[ "bin"%string := [x61; x00; x62] ]} in
  read_all fs (drop 1 ["wcat"; "bin"]%string) = Some [[x61; x00; x62]]
  ∧ run fs ["wcat"; "bin"]%string (replicate 1000 x2a) = Some (0, [x61])
  ∧ run fs ["wcat"; "bin"]%string (replicate 1000 x2a)
    ≠ Some (0, concat [[x61; x00; x62]]).
Proof.
  split_and!; [by vm_compute|by vm_compute|]. by vm_compute.
Qed.

(** ** C2: the first file that cannot be opened *)

(** C2, as the code has it.  When [bad] is the first path that cannot be
    opened, the program returns exit code 1; [fopen] is called for the
    paths up to [bad] and for no later one, and every [fgets] reads a
    stream opened for one of the paths before [bad]; and when none of the
    files before [bad] contains a NUL byte, standard output is the
    concatenation of their contents followed by the diagnostic line. *)
Theorem wcat_fail_fast fs prog oks bad rest junk cs :
  length junk = MAX_LINE_LENGTH →
  read_all fs oks = Some cs →
  fs !! bad = None →
  ∃ w,
    main (prog :: oks ++ bad :: rest) junk (init_world fs) = Ok 1 w
    ∧ (Forall (λ c, NUL ∉ c) cs → stdout w = concat cs ++ cannot_open)
    ∧ opened (trace w) = oks ++ [bad]
    ∧ (∀ f c, EvGets f c ∈ trace w →
         ∃ p, p ∈ oks ∧ EvOpen p (Some f) ∈ trace w).
Proof.
  intros Hjunk Hoks Hbad.
  destruct (main_spec fs (prog :: oks ++ bad :: rest) junk Hjunk) as (t & Hmain & Ht).
  change (drop 1 (prog :: oks ++ bad :: rest)) with (oks ++ bad :: rest)
    in Hmain, Ht.
  rewrite (expected_first_failure fs _ _ rest _ Hoks Hbad) in Hmain.
  eexists. split; [exact Hmain|]. cbn [stdout trace]. split_and!.
  - intros Hnul. by rewrite (shown_all_id _ Hnul).
  - rewrite (run_trace_opened _ _ _ _ Ht).
    by apply (attempted_first_failure fs _ _ rest cs).
  - intros f c Hin.
    destruct (run_trace_gets _ _ _ _ _ _ Ht Hin) as (p & [s Hp] & Hopen).
    exists p. split; [|done].
    pose proof (opened_elem _ _ _ Hopen) as Hpo.
    rewrite (run_trace_opened _ _ _ _ Ht),
      (attempted_first_failure fs _ _ rest cs Hoks Hbad) in Hpo.
    apply elem_of_app in Hpo as [Hpo|Hpo%list_elem_of_singleton]; [done|].
    congruence.
Qed.

(** [wcat a.txt missing.txt b.txt]: one file is read before the one that
    is missing, and one is named after it. *)
Lemma wcat_fail_fast_witness :
  ∃ w,
    main (["wcat"; "a.txt"; "missing.txt"; "b.txt"]%string) (replicate 1000 x2a)
         (init_world hello_world) = Ok 1 w
    ∧ stdout w = String.list_byte_of_string "hello" ++ [LF]
                 ++ String.list_byte_of_string "wcat: cannot open file" ++ [LF]
    ∧ opened (trace w) = ["a.txt"; "missing.txt"]%string.
Proof.
  destruct (wcat_fail_fast hello_world "wcat" ["a.txt"%string] "missing.txt"
              ["b.txt"%string] (replicate 1000 x2a)
              [String.list_byte_of_string "hello" ++ [LF]])
    as (w & Hmain & Hout & Hopened & _).
  - reflexivity.
  - vm_compute. reflexivity.
  - vm_compute. reflexivity.
  - exists w. split; [exact Hmain|]. split; [|exact Hopened].
    apply Hout. apply (bool_decide_unpack _). vm_compute. exact I.
Defined.

(** C2, as stated, fails when a file before the missing one holds a NUL
    byte: standard output is not the full contents of that file followed
    by the diagnostic. *)
Lemma wcat_fail_fast_counterexample :
  let fs : gmap string (list byte) := {[ "bin"%string := [x61; x00; x62] ]} in
  read_all fs ["bin"%string] = Some [[x61; x00; x62]]
  ∧ fs !! "missing"%string = None
  ∧ run fs ["wcat"; "bin"; "missing"]%string (replicate 1000 x2a)
    = Some (1, [x61] ++ cannot_open)
  ∧ run fs ["wcat"; "bin"; "missing"]%string (replicate 1000 x2a)
    ≠ Some (1, concat [[x61; x00; x62]] ++ cannot_open).
Proof.
  split_and!; [by vm_compute|by vm_compute|by vm_compute|]. by vm_compute.
Qed.

(** ** C3: no arguments *)

(** C3.  Invoked with no file paths ([argc < 2]), the program returns
    exit code 0 having written nothing to standard output; it makes no
    library call at all, so the world is left as it was. *)
Theorem wcat_no_arguments fs argv junk :
  (length argv < 2)%nat →
  main argv junk (init_world fs) = Ok 0 (init_world fs)
  ∧ run fs argv junk = Some (0, []).
Proof.
  intros Hargc. unfold run, main, main_with.
  rewrite decide_True by lia. done.
Qed.

Lemma wcat_no_arguments_witness :
  (length ["wcat"%string] < 2)%nat
  ∧ main ["wcat"%string] [] (init_world ∅) = Ok 0 (init_world ∅)
  ∧ run ∅ ["wcat"%string] [] = Some (0, []).
Proof.
  split; [simpl; lia|]. apply (wcat_no_arguments ∅ ["wcat"%string] []). simpl; lia.
Defined.

(** ** C4: the size of a read *)

(** C4, as the code has it.  Every [fgets] of a run delivers at most 998
    bytes ([MAX_LINE_LENGTH - 2]: the size given to [fgets] is 999 and
    counts the terminator), and a line terminator ends the read that
    delivers it; the bound is reached: when the first file named starts
    with 998 bytes that are not line terminators, the first read delivers
    exactly those.  The read itself, on the buffer of 1000 bytes: a chunk
    of at most 998 bytes comes off the front of the stream and goes to
    the front of the buffer with a NUL after it, and the chunk stops at
    998 bytes, at the end of the file or after a line terminator. *)
Theorem wcat_read_size fs argv junk :
  length junk = MAX_LINE_LENGTH →
  ∃ code w,
    main argv junk (init_world fs) = Ok code w
    ∧ Forall (λ c, (length c ≤ MAX_LINE_LENGTH - 2)%nat
                   ∧ ∀ i, c !! i = Some LF → S i = length c)
             (reads (trace w))
    ∧ (∀ p s, argv !! 1%nat = Some p → fs !! p = Some s →
         (MAX_LINE_LENGTH - 2 ≤ length s)%nat →
         LF ∉ take (MAX_LINE_LENGTH - 2) s →
         reads (trace w) !! 0%nat = Some (take (MAX_LINE_LENGTH - 2) s))
    ∧ (∀ buf f w0 s line w1,
         length buf = MAX_LINE_LENGTH → streams w0 !! f = Some s →
         fgets buf (MAX_LINE_LENGTH - 1) f w0 = Ok (Some line) w1 →
         ∃ c rest,
           s = c ++ rest ∧ streams w1 !! f = Some rest
           ∧ line = c ++ NUL :: drop (S (length c)) buf
           ∧ (length c ≤ MAX_LINE_LENGTH - 2)%nat
           ∧ (length c = (MAX_LINE_LENGTH - 2)%nat ∨ rest = []
              ∨ last c = Some LF)).
Proof.
  intros Hjunk.
  destruct (main_spec fs argv junk Hjunk) as (t & Hmain & Ht).
  eexists _, _. split; [exact Hmain|]. cbn [trace].
  rewrite (run_trace_reads _ _ _ _ Ht). split_and!.
  - apply expected_reads_bounded.
  - intros p s Hargv Hp Hlen Hlf.
    destruct argv as [|prog [|p' paths]]; [done|done|].
    injection Hargv as ->.
    change (drop 1 (prog :: p :: paths)) with (p :: paths).
    cbn [expected_reads]. rewrite Hp.
    rewrite chunks_first; [done| |done].
    intros ->. cbn [length] in Hlen. unfold MAX_LINE_LENGTH in Hlen. lia.
  - intros buf f w0 s line w1 Hbuf Hf Hgets.
    destruct (fgets_line _ _ _ _ _ _ Hbuf Hf Hgets)
      as (c & rest & -> & _ & Hlen & Hstop & _ & -> & Hw1).
    exists c, rest. split_and!; [done| |done|done|done].
    rewrite Hw1. apply lookup_insert_eq.
Qed.

Lemma wcat_read_size_witness :
  ∃ code w,
    main ["wcat"; "long"]%string (replicate 1000 x2a) (init_world line_999)
    = Ok code w
    ∧ Forall (λ c, (length c ≤ 998)%nat) (reads (trace w))
    ∧ reads (trace w) !! 0%nat = Some (replicate 998 x61).
Proof.
  destruct (wcat_read_size line_999 ["wcat"; "long"]%string (replicate 1000 x2a))
    as (code & w & Hmain & Hall & Hfirst & _).
  - reflexivity.
  - exists code, w. split; [exact Hmain|]. split.
    + eapply Forall_impl; [exact Hall|]. intros c [Hc _]. exact Hc.
    + apply (Hfirst "long"%string (replicate 999 x61)).
      * reflexivity.
      * vm_compute. reflexivity.
      * vm_compute. lia.
      * apply (bool_decide_unpack _). vm_compute. exact I.
Defined.

(** C4, as stated, fails: of a line of 999 bytes with no terminator, the
    first read delivers 998 bytes and a second read delivers the last
    one. *)
Lemma wcat_read_size_counterexample :
  ∃ w,
    main ["wcat"; "long"]%string (replicate 1000 x2a) (init_world line_999)
    = Ok 0 w
    ∧ reads (trace w) = [replicate 998 x61; [x61]; []]
    ∧ reads (trace w) ≠ [replicate 999 x61; []].
Proof.
  eexists. split_and!; [by vm_compute|by vm_compute|by vm_compute].
Qed.

(** ** C5: a line longer than the buffer *)

Lemma run_trace_single Q fs p s t :
  fs !! p = Some s → run_trace Q fs [p] t →
  ∃ f tl, t = EvOpen p (Some f) :: tl ++ [EvClose f]
          ∧ loop_trace Q f (chunks s) tl.
Proof.
  intros Hp Ht. inversion Ht as [|? ? Hnone|? ? s' f tl t' Hp' Htl Ht']; subst.
  - congruence.
  - inversion Ht'; subst. exists f, tl. split; [done|]. congruence.
Qed.

Lemma single_line_first s :
  single_line s → (MAX_LINE_LENGTH - 1 < length s)%nat →
  LF ∉ take (MAX_LINE_LENGTH - 2) s.
Proof.
  intros Hline Hlen [i Hi]%list_elem_of_lookup.
  pose proof (lookup_lt_Some _ _ _ Hi) as Hlt. rewrite length_take in Hlt.
  rewrite lookup_take_lt in Hi by lia.
  specialize (Hline i Hi). unfold MAX_LINE_LENGTH in *. lia.
Qed.

(** C5.  A file that is a single line of more than 999 bytes, none of
    them NUL, comes out byte for byte: the line is cut into several reads,
    the first of 998 bytes; what is written is what was read, chunk by
    chunk, and the chunks concatenate to the file. *)
Theorem wcat_long_line fs prog p s junk :
  length junk = MAX_LINE_LENGTH →
  fs !! p = Some s →
  (MAX_LINE_LENGTH - 1 < length s)%nat →
  NUL ∉ s →
  single_line s →
  ∃ w,
    main [prog; p] junk (init_world fs) = Ok 0 w
    ∧ stdout w = s
    ∧ reads (trace w) = chunks s ++ [[]]
    ∧ writes (trace w) = chunks s
    ∧ concat (chunks s) = s
    ∧ (2 ≤ length (chunks s))%nat
    ∧ chunks s !! 0%nat = Some (take (MAX_LINE_LENGTH - 2) s).
Proof.
  intros Hjunk Hp Hlen Hnul Hline.
  destruct (main_spec fs [prog; p] junk Hjunk) as (t & Hmain & Ht).
  change (drop 1 [prog; p]) with [p] in Hmain, Ht.
  cbn [expected] in Hmain. rewrite Hp in Hmain. cbn [fst snd default] in Hmain.
  rewrite app_nil_r, (shown_id s Hnul) in Hmain.
  eexists. split; [exact Hmain|]. cbn [stdout trace].
  destruct (run_trace_single _ _ _ _ _ Hp Ht) as (f & tl & -> & Htl).
  split_and!.
  - done.
  - change (EvOpen p (Some f) :: tl ++ [EvClose f])
      with ([EvOpen p (Some f)] ++ tl ++ [EvClose f]).
    rewrite !reads_app, (loop_trace_reads _ _ _ _ Htl). cbn [reads omap].
    by rewrite app_nil_r.
  - change (EvOpen p (Some f) :: tl ++ [EvClose f])
      with ([EvOpen p (Some f)] ++ tl ++ [EvClose f]).
    rewrite !writes_app, (loop_trace_writes _ _ _ _ Htl), (shown_chunks_id s Hnul).
    by rewrite app_nil_r.
  - apply concat_chunks.
  - apply chunks_many. lia.
  - rewrite chunks_first; [done| |by apply single_line_first].
    intros ->. cbn [length] in Hlen. lia.
Qed.

Lemma wcat_long_line_witness :
  ∃ w,
    main ["wcat"; "long"]%string (replicate 1000 x2a) (init_world line_1500)
    = Ok 0 w
    ∧ stdout w = replicate 1500 x61 ++ [LF]
    ∧ (2 ≤ length (reads (trace w)))%nat.
Proof.
  destruct (wcat_long_line line_1500 "wcat" "long" (replicate 1500 x61 ++ [LF])
              (replicate 1000 x2a))
    as (w & Hmain & Hout & Hreads & _ & _ & Hmany & _).
  - reflexivity.
  - vm_compute. reflexivity.
  - vm_compute. lia.
  - apply (bool_decide_unpack _). vm_compute. exact I.
  - intros i Hi.
    destruct (decide (i < 1500)%nat) as [Hlt|Hge].
    + rewrite lookup_app_l in Hi by (rewrite length_replicate; lia).
      apply lookup_replicate in Hi as [Hi _]. discriminate Hi.
    + apply lookup_lt_Some in Hi. rewrite length_app, length_replicate in *.
      cbn [length] in *. lia.
  - exists w. split; [exact Hmain|]. split; [exact Hout|].
    rewrite Hreads, length_app. lia.
Defined.

(** ** C6: the forced terminator *)

(** C6.  Whatever the line buffer holds after a read, the loop body sets
    its last byte to NUL before [printf] reads it, so [printf] finds a
    terminator inside the buffer; and in every run, for any files and
    arguments, no access leaves the buffer (the run ends without a fault),
    every buffer handed to [printf] has its full size and NUL as its last
    byte, and every [fgets] that delivers data is followed at once by the
    [printf] of such a buffer. *)
Theorem wcat_buffer_terminated fs argv junk :
  length junk = MAX_LINE_LENGTH →
  (∀ line w, length line = MAX_LINE_LENGTH →
     ∃ w', loop_body line w = Ok (<[(MAX_LINE_LENGTH - 1)%nat := NUL]> line) w'
           ∧ is_Some (c_string (<[(MAX_LINE_LENGTH - 1)%nat := NUL]> line))
           ∧ printed_buffers (trace w')
             = printed_buffers (trace w)
               ++ [<[(MAX_LINE_LENGTH - 1)%nat := NUL]> line])
  ∧ ∃ code w,
      main argv junk (init_world fs) = Ok code w
      ∧ Forall (λ buf, length buf = MAX_LINE_LENGTH
                       ∧ buf !! (MAX_LINE_LENGTH - 1)%nat = Some NUL)
               (printed_buffers (trace w))
      ∧ (∀ t1 t2 f c, trace w = t1 ++ EvGets f c :: t2 → c ≠ [] →
           ∃ buf t3, t2 = EvPrintfS buf :: t3
                     ∧ buf !! (MAX_LINE_LENGTH - 1)%nat = Some NUL).
Proof.
  intros Hjunk. split.
  - intros line w Hline.
    assert (<[(MAX_LINE_LENGTH - 1)%nat := NUL]> line !! (MAX_LINE_LENGTH - 1)%nat
            = Some NUL) as Hlast
      by (apply list_lookup_insert_eq; rewrite Hline; unfold MAX_LINE_LENGTH; lia).
    destruct (c_string_terminated _ _ Hlast) as [str Hstr].
    unfold loop_body, bind.
    rewrite store_ok by (rewrite Hline; unfold MAX_LINE_LENGTH; lia).
    unfold printf_s. rewrite Hstr. eexists. split; [done|]. split; [done|].
    cbn [trace]. by rewrite printed_buffers_app.
  - destruct (main_spec fs argv junk Hjunk) as (t & Hmain & Ht).
    pose proof (run_trace_printed _ _ _ _ Ht) as Hprinted.
    eexists _, _. split; [exact Hmain|]. cbn [trace]. split; [done|].
    intros t1 t2 f c Heq Hc.
    destruct (run_trace_split _ _ _ _ _ _ Ht Heq) as (ph1 & ph & _ & _ & Hrest & Hph).
    cbn [phase_run] in Hrest.
    destruct (phase_step ph1 (EvGets f c)) as [ph2|] eqn:Hstep; [|done].
    assert (ph2 = Loaded f) as ->.
    { destruct ph1, c; try done; cbn [phase_step] in Hstep;
        destruct (decide _) as [->|]; by simplify_eq. }
    destruct t2 as [|e t3]; cbn [phase_run] in Hrest.
    { injection Hrest as <-. by destruct Hph. }
    destruct e as [| |buf| |]; try done. exists buf, t3. split; [done|].
    subst t. rewrite printed_buffers_app in Hprinted.
    apply Forall_app in Hprinted as [_ Hprinted].
    change (printed_buffers (EvGets f c :: EvPrintfS buf :: t3))
      with (buf :: printed_buffers t3) in Hprinted.
    apply Forall_cons in Hprinted as [[_ Hbuf] _]. done.
Qed.

Lemma wcat_buffer_terminated_witness :
  ∃ code w,
    main ["wcat"; "a.txt"; "b.txt"]%string (replicate 1000 x2a)
         (init_world hello_world) = Ok code w
    ∧ Forall (λ buf, length buf = 1000%nat ∧ buf !! 999%nat = Some x00)
             (printed_buffers (trace w)).
Proof.
  destruct (wcat_buffer_terminated hello_world ["wcat"; "a.txt"; "b.txt"]%string
              (replicate 1000 x2a))
    as (_ & code & w & Hmain & Hall & _).
  - reflexivity.
  - exists code, w. split; [exact Hmain|exact Hall].
Defined.

(** ** C7: one stream at a time *)

Lemma live_app t1 t2 : live (t1 ++ t2) = live_from (live t1) t2.
Proof. unfold live, live_from. apply foldl_app. Qed.

(** C7.  At every point of every run at most one stream is open: each
    [fopen] is called when no stream is open, a failed [fopen] leaves none
    open, each [fclose] comes right after the [fgets] that found the end
    of that stream, and no stream is open when the program returns. *)
Theorem wcat_one_stream fs argv junk :
  length junk = MAX_LINE_LENGTH →
  ∃ code w,
    main argv junk (init_world fs) = Ok code w
    ∧ streams w = ∅
    ∧ live (trace w) = ∅
    ∧ (∀ t1 t2, trace w = t1 ++ t2 → (size (live t1) ≤ 1)%nat)
    ∧ (∀ t1 t2 p r, trace w = t1 ++ EvOpen p r :: t2 →
         live t1 = ∅ ∧ (r = None → live (t1 ++ [EvOpen p r]) = ∅))
    ∧ (∀ t1 t2 f, trace w = t1 ++ EvClose f :: t2 →
         ∃ t0, t1 = t0 ++ [EvGets f []]).
Proof.
  intros Hjunk.
  destruct (main_spec fs argv junk Hjunk) as (t & Hmain & Ht).
  eexists _, _. split; [exact Hmain|]. cbn [streams trace].
  pose proof (run_trace_split _ _ _ _ t [] Ht (eq_sym (app_nil_r t)))
    as (ph & ph' & _ & Hend & Hnil & Hph').
  injection Hnil as <-.
  split_and!.
  - done.
  - rewrite Hend. by destruct Hph' as [->| ->].
  - intros t1 t2 Heq.
    destruct (run_trace_split _ _ _ _ _ _ Ht Heq) as (ph1 & _ & _ & -> & _).
    apply held_size.
  - intros t1 t2 p r Heq.
    destruct (run_trace_split _ _ _ _ _ _ Ht Heq) as (ph1 & ph2 & _ & Hlive & Hrest & _).
    cbn [phase_run] in Hrest.
    assert (ph1 = Idle) as ->.
    { destruct ph1; try done; by destruct r. }
    split; [done|]. intros ->. rewrite live_app, Hlive. done.
  - intros t1 t2 f Heq.
    destruct (run_trace_split _ _ _ _ _ _ Ht Heq) as (ph1 & ph2 & Hrun1 & _ & Hrest & _).
    cbn [phase_run] in Hrest.
    assert (ph1 = Drained f) as ->.
    { destruct ph1; try done. cbn [phase_step] in Hrest.
      by destruct (decide (f0 = f)) as [->|]. }
    by apply phase_run_drained.
Qed.

Lemma wcat_one_stream_witness :
  ∃ code w,
    main ["wcat"; "a.txt"; "b.txt"]%string (replicate 1000 x2a)
         (init_world hello_world) = Ok code w
    ∧ streams w = ∅
    ∧ (∀ t1 t2, trace w = t1 ++ t2 → (size (live t1) ≤ 1)%nat).
Proof.
  destruct (wcat_one_stream hello_world ["wcat"; "a.txt"; "b.txt"]%string
              (replicate 1000 x2a))
    as (code & w & Hmain & Hstreams & _ & Hlive & _).
  - reflexivity.
  - exists code, w. split; [exact Hmain|]. split; [exact Hstreams|exact Hlive].
Defined.

Lemma fopen_log_agrees path w r w' :
  log_agrees w → fopen path w = Ok r w' → log_agrees w'.
Proof.
  unfold log_agrees, fopen. intros Hw.
  destruct (files w !! path) as [s|]; intros [= <- <-]; cbn [streams trace];
    rewrite live_app, Hw; cbn [live_from foldl live_step].
  - by rewrite dom_insert_L.
  - done.
Qed.

Lemma fclose_log_agrees f w w' :
  log_agrees w → fclose f w = Ok tt w' → log_agrees w'.
Proof.
  unfold log_agrees, fclose. intros Hw.
  destruct (streams w !! f) as [s|]; intros [= <-]; cbn [streams trace].
  rewrite live_app, Hw; cbn [live_from foldl live_step].
  by rewrite dom_delete_L.
Qed.

Lemma fgets_log_agrees buf n f w r w' :
  log_agrees w → fgets buf n f w = Ok r w' → log_agrees w'.
Proof.
  unfold log_agrees, fgets. intros Hw.
  destruct (streams w !! f) as [s|] eqn:Hf; [|done].
  assert (dom (streams w) = {[f]} ∪ dom (streams w)) as Hdom.
  { symmetry. apply subseteq_union_1_L, singleton_subseteq_l.
    by apply elem_of_dom_2 in Hf. }
  assert (∀ t, live (trace w ++ [EvGets f t]) = dom (streams w)) as Hlog.
  { intros t. by rewrite live_app, Hw. }
  destruct n as [|[|m]]; [| |destruct s as [|b s]];
    try destruct (fgets_scan _ _) as [c rest]; try case_decide;
    intros Hgets; simplify_eq; cbn [streams trace];
    rewrite Hlog, ?dom_insert_L; done.
Qed.

Lemma printf_s_log_agrees buf w w' :
  log_agrees w → printf_s buf w = Ok tt w' → log_agrees w'.
Proof.
  unfold log_agrees, printf_s. intros Hw.
  destruct (c_string buf); intros [= <-]; cbn [streams trace].
  by rewrite live_app, Hw.
Qed.

Lemma printf_log_agrees text w w' :
  log_agrees w → printf text w = Ok tt w' → log_agrees w'.
Proof.
  unfold log_agrees, printf. intros Hw [= <-]; cbn [streams trace].
  by rewrite live_app, Hw.
Qed.

(** ** C8: determinism *)

(** C8.  What a run shows is a function of the argument list and the
    files alone: two runs on the same arguments and files return the same
    exit code and write the same bytes, whatever the uninitialised line
    buffer held at the start of each. *)
Theorem wcat_deterministic fs argv junk1 junk2 :
  length junk1 = MAX_LINE_LENGTH →
  length junk2 = MAX_LINE_LENGTH →
  is_Some (run fs argv junk1) ∧ run fs argv junk1 = run fs argv junk2.
Proof.
  intros H1 H2. unfold run.
  destruct (main_spec fs argv junk1 H1) as (t1 & -> & _).
  destruct (main_spec fs argv junk2 H2) as (t2 & -> & _).
  cbn [observe stdout]. eauto.
Qed.

Lemma wcat_deterministic_witness :
  run hello_world ["wcat"; "a.txt"; "b.txt"]%string (replicate 1000 x2a)
  = run hello_world ["wcat"; "a.txt"; "b.txt"]%string (replicate 1000 xff).
Proof.
  apply (wcat_deterministic hello_world ["wcat"; "a.txt"; "b.txt"]%string
           (replicate 1000 x2a) (replicate 1000 xff)); reflexivity.
Defined.

(** ** C9: NUL bytes *)

(** C9.  A file that contains a NUL byte does not come out as it is: the
    exit code is 0, and standard output holds, for each chunk read, the
    bytes before the chunk's first NUL; it contains no NUL and is shorter
    than the file. *)
Theorem wcat_nul_truncates fs prog p s junk :
  length junk = MAX_LINE_LENGTH →
  fs !! p = Some s →
  NUL ∈ s →
  run fs [prog; p] junk = Some (0, concat (before_nul <$> chunks s))
  ∧ concat (before_nul <$> chunks s) ≠ s
  ∧ (NUL ∉ concat (before_nul <$> chunks s))
  ∧ (length (concat (before_nul <$> chunks s)) < length s)%nat.
Proof.
  intros Hjunk Hp Hnul. fold (shown s).
  pose proof (shown_length s Hnul) as Hlen.
  split_and!.
  - unfold run. destruct (main_spec fs [prog; p] junk Hjunk) as (t & -> & _).
    change (drop 1 [prog; p]) with [p]. cbn [expected]. rewrite Hp.
    cbn [observe stdout fst snd default]. by rewrite app_nil_r.
  - intros Heq. rewrite Heq in Hlen. lia.
  - apply shown_no_nul.
  - done.
Qed.

Lemma wcat_nul_truncates_witness :
  run with_nul ["wcat"; "bin"]%string (replicate 1000 x2a) = Some (0, [x61; x63]).
Proof.
  apply (wcat_nul_truncates with_nul "wcat" "bin" [x61; x00; x62; LF; x63; x00]
           (replicate 1000 x2a)).
  - reflexivity.
  - vm_compute. reflexivity.
  - apply (bool_decide_unpack _). vm_compute. exact I.
Defined.

(** ** C10: the forced terminator changes nothing *)

(** C10.  The program with line 21 and the program without it show the
    same thing on every input: neither faults, and both return the same
    exit code and write the same bytes.  The reason: an [fgets] of size
    [MAX_LINE_LENGTH - 1] that delivers data leaves a NUL in the buffer
    before index [MAX_LINE_LENGTH - 1], the one that line 21 sets. *)
Theorem wcat_forced_terminator_redundant fs argv junk :
  length junk = MAX_LINE_LENGTH →
  is_Some (run fs argv junk)
  ∧ run_unforced fs argv junk = run fs argv junk
  ∧ (∀ buf f w line w',
       length buf = MAX_LINE_LENGTH →
       fgets buf (MAX_LINE_LENGTH - 1) f w = Ok (Some line) w' →
       ∃ i, (i < MAX_LINE_LENGTH - 1)%nat ∧ line !! i = Some NUL).
Proof.
  intros Hjunk. unfold run, run_unforced.
  destruct (main_spec fs argv junk Hjunk) as (t & -> & _).
  destruct (main_unforced_spec fs argv junk Hjunk) as (t' & -> & _).
  cbn [observe stdout]. split_and!; [eauto|done|].
  intros buf f w line w' Hbuf Hgets.
  apply (fgets_buffer buf _ f w line w'); [|done].
  rewrite Hbuf. unfold MAX_LINE_LENGTH. lia.
Qed.

Lemma wcat_forced_terminator_redundant_witness :
  run_unforced hello_world ["wcat"; "a.txt"; "b.txt"]%string (replicate 1000 x2a)
  = run hello_world ["wcat"; "a.txt"; "b.txt"]%string (replicate 1000 x2a).
Proof.
  apply (wcat_forced_terminator_redundant hello_world
           ["wcat"; "a.txt"; "b.txt"]%string (replicate 1000 x2a)).
  reflexivity.
Defined.

(** * Further properties of [main] *)

(** ** What a run shows, for any files and arguments *)

Lemma run_spec fs argv junk :
  length junk = MAX_LINE_LENGTH →
  run fs argv junk
  = Some (default 0 (expected fs (drop 1 argv)).2, (expected fs (drop 1 argv)).1).
Proof.
  intros Hjunk. unfold run.
  by destruct (main_spec fs argv junk Hjunk) as (t & -> & _).
Qed.

Section more_expectations.
Context (fs : gmap string (list byte)).
Implicit Types (paths : list string) (cs : list (list byte)).

Lemma expected_code paths :
  ((expected fs paths).2 = None ∧ Forall (λ p, is_Some (fs !! p)) paths)
  ∨ ((expected fs paths).2 = Some 1 ∧ ¬ Forall (λ p, is_Some (fs !! p)) paths).
Proof.
  induction paths as [|p paths IH]; cbn [expected].
  - left. by split.
  - destruct (fs !! p) as [s|] eqn:Hp.
    + destruct (expected fs paths) as [out r]; cbn [fst snd] in *.
      destruct IH as [[-> Hall]|[-> Hnot]].
      * left. split; [done|]. constructor; [by rewrite Hp|done].
      * right. split; [done|]. by intros [_ Hall]%Forall_cons.
    + right. split; [done|]. intros [Hsome _]%Forall_cons.
      rewrite Hp in Hsome. by destruct Hsome.
Qed.

Lemma expected_cut paths bad rest :
  fs !! bad = None →
  expected fs (paths ++ bad :: rest) = expected fs (paths ++ [bad]).
Proof.
  intros Hbad. induction paths as [|p paths IH]; cbn [app expected].
  - by rewrite Hbad.
  - destruct (fs !! p); [|done]. by rewrite IH.
Qed.

Lemma expected_app paths1 paths2 cs :
  read_all fs paths1 = Some cs →
  expected fs (paths1 ++ paths2)
  = ((expected fs paths1).1 ++ (expected fs paths2).1, (expected fs paths2).2)
  ∧ (expected fs paths1).2 = None.
Proof.
  revert cs; induction paths1 as [|p paths1 IH]; intros cs; cbn [app expected read_all].
  - intros _. by destruct (expected fs paths2).
  - destruct (fs !! p) as [s|]; [|done].
    destruct (read_all fs paths1) as [ss|]; [|done]. intros _.
    destruct (IH ss eq_refl) as [-> Hnone].
    destruct (expected fs paths1) as [out r]; cbn [fst snd] in *.
    by rewrite app_assoc.
Qed.

Lemma cannot_open_no_nul : NUL ∉ cannot_open.
Proof. apply (bool_decide_unpack _). by vm_compute. Qed.

Lemma expected_no_nul paths : NUL ∉ (expected fs paths).1.
Proof.
  induction paths as [|p paths IH]; cbn [expected].
  - apply not_elem_of_nil.
  - destruct (fs !! p) as [s|]; [|apply cannot_open_no_nul].
    destruct (expected fs paths) as [out r]; cbn [fst] in *.
    apply not_elem_of_app. split; [apply shown_no_nul|done].
Qed.

Lemma shown_le s : (length (shown s) ≤ length s)%nat.
Proof.
  destruct (decide (NUL ∈ s)) as [Hin|Hnot].
  - pose proof (shown_length s Hin). lia.
  - by rewrite (shown_id s Hnot).
Qed.

Lemma shown_all_le cs :
  (length (concat (shown <$> cs)) ≤ length (concat cs))%nat.
Proof.
  induction cs as [|c cs IH]; [done|].
  rewrite fmap_cons. cbn [concat]. rewrite !length_app.
  pose proof (shown_le c). lia.
Qed.

Lemma shown_all_lt cs :
  Exists (λ c, NUL ∈ c) cs →
  (length (concat (shown <$> cs)) < length (concat cs))%nat.
Proof.
  induction 1 as [c cs Hc|c cs _ IH];
    rewrite fmap_cons; cbn [concat]; rewrite !length_app.
  - pose proof (shown_length c Hc). pose proof (shown_all_le cs). lia.
  - pose proof (shown_le c). lia.
Qed.
End more_expectations.

Lemma expected_ext fs1 fs2 paths :
  (∀ p, p ∈ paths → fs1 !! p = fs2 !! p) →
  expected fs1 paths = expected fs2 paths.
Proof.
  induction paths as [|p paths IH]; intros Hagree; cbn [expected]; [done|].
  rewrite <- (Hagree p) by (apply elem_of_cons; auto).
  rewrite IH; [done|]. intros q Hq. apply Hagree. apply elem_of_cons; auto.
Qed.

(** X1.  The exit code tells whether every file could be opened: it is 0
    when every path named can be opened and 1 otherwise, and no other
    value is ever returned. *)
Theorem wcat_exit_code fs argv junk :
  length junk = MAX_LINE_LENGTH →
  ∃ code out,
    run fs argv junk = Some (code, out)
    ∧ (code = 0 ∨ code = 1)
    ∧ (code = 0 ↔ Forall (λ p, is_Some (fs !! p)) (drop 1 argv)).
Proof.
  intros Hjunk. rewrite (run_spec fs argv junk Hjunk).
  eexists _, _. split; [done|].
  destruct (expected_code fs (drop 1 argv)) as [[-> Hall]|[-> Hnot]];
    cbn [default].
  - split; [by left|]. by split.
  - split; [by right|]. split; [done|]. intros Hall. by destruct Hnot.
Qed.

Lemma wcat_exit_code_witness :
  ∃ code out,
    run hello_world ["wcat"; "a.txt"; "missing.txt"]%string (replicate 1000 x2a)
    = Some (code, out)
    ∧ (code = 0 ∨ code = 1)
    ∧ (code = 0 ↔ Forall (λ p, is_Some (hello_world !! p))
                         (drop 1 ["wcat"; "a.txt"; "missing.txt"]%string)).
Proof.
  apply (wcat_exit_code hello_world ["wcat"; "a.txt"; "missing.txt"]%string
           (replicate 1000 x2a)).
  reflexivity.
Defined.

(** X2.  What follows the first path that cannot be opened does not
    count: the exit code and the output are those of the run whose
    argument list stops at that path. *)
Theorem wcat_ignores_rest fs prog paths bad rest junk :
  length junk = MAX_LINE_LENGTH →
  fs !! bad = None →
  run fs (prog :: paths ++ bad :: rest) junk
  = run fs (prog :: paths ++ [bad]) junk
  ∧ ∃ out, run fs (prog :: paths ++ bad :: rest) junk = Some (1, out).
Proof.
  intros Hjunk Hbad. rewrite !(run_spec _ _ _ Hjunk).
  change (drop 1 (prog :: paths ++ bad :: rest)) with (paths ++ bad :: rest).
  change (drop 1 (prog :: paths ++ [bad])) with (paths ++ [bad]).
  rewrite (expected_cut fs paths bad rest Hbad). split; [done|].
  destruct (expected_code fs (paths ++ [bad])) as [[_ Hall]|[-> _]].
  - apply Forall_app in Hall as [_ [Hsome _]%Forall_cons].
    rewrite Hbad in Hsome. by destruct Hsome.
  - eauto.
Qed.

Lemma wcat_ignores_rest_witness :
  run hello_world ["wcat"; "a.txt"; "missing.txt"; "b.txt"; "a.txt"]%string
      (replicate 1000 x2a)
  = run hello_world ["wcat"; "a.txt"; "missing.txt"]%string (replicate 1000 x2a).
Proof.
  apply (wcat_ignores_rest hello_world "wcat" ["a.txt"%string] "missing.txt"
           ["b.txt"; "a.txt"]%string (replicate 1000 x2a)).
  - reflexivity.
  - vm_compute. reflexivity.
Defined.

(** X3.  Runs compose: when every path of a first list can be opened,
    the run on that list followed by a second list writes what the run on
    the first list writes, then what the run on the second list writes,
    and returns the exit code of the run on the second list. *)
Theorem wcat_composes fs prog paths1 paths2 junk cs :
  length junk = MAX_LINE_LENGTH →
  read_all fs paths1 = Some cs →
  ∃ out1 code2 out2,
    run fs (prog :: paths1) junk = Some (0, out1)
    ∧ run fs (prog :: paths2) junk = Some (code2, out2)
    ∧ run fs (prog :: paths1 ++ paths2) junk = Some (code2, out1 ++ out2).
Proof.
  intros Hjunk Hall. rewrite !(run_spec _ _ _ Hjunk).
  change (drop 1 (prog :: paths1)) with paths1.
  change (drop 1 (prog :: paths2)) with paths2.
  change (drop 1 (prog :: paths1 ++ paths2)) with (paths1 ++ paths2).
  destruct (expected_app fs paths1 paths2 cs Hall) as [-> ->].
  cbn [fst snd default]. eexists _, _, _. split_and!; reflexivity.
Qed.

Lemma wcat_composes_witness :
  ∃ out1 code2 out2,
    run hello_world ["wcat"; "a.txt"]%string (replicate 1000 x2a) = Some (0, out1)
    ∧ run hello_world ["wcat"; "b.txt"; "a.txt"]%string (replicate 1000 x2a)
      = Some (code2, out2)
    ∧ run hello_world ["wcat"; "a.txt"; "b.txt"; "a.txt"]%string (replicate 1000 x2a)
      = Some (code2, out1 ++ out2).
Proof.
  apply (wcat_composes hello_world "wcat" ["a.txt"%string] ["b.txt"; "a.txt"]%string
           (replicate 1000 x2a) [String.list_byte_of_string "hello" ++ [LF]]).
  - reflexivity.
  - vm_compute. reflexivity.
Defined.

(** X4.  Standard output never holds a NUL byte, whatever the files
    hold and whether or not the run fails. *)
Theorem wcat_output_no_nul fs argv junk :
  length junk = MAX_LINE_LENGTH →
  ∃ code out, run fs argv junk = Some (code, out) ∧ NUL ∉ out.
Proof.
  intros Hjunk. rewrite (run_spec fs argv junk Hjunk).
  eexists _, _. split; [done|]. apply expected_no_nul.
Qed.

Lemma wcat_output_no_nul_witness :
  ∃ code out,
    run with_nul ["wcat"; "bin"; "missing"]%string (replicate 1000 x00)
    = Some (code, out)
    ∧ NUL ∉ out.
Proof.
  apply (wcat_output_no_nul with_nul ["wcat"; "bin"; "missing"]%string
           (replicate 1000 x00)).
  reflexivity.
Defined.

(** X5.  When every file named can be opened, the output is never longer
    than the files together, and it is their concatenation exactly when
    none of them contains a NUL byte. *)
Theorem wcat_faithful_iff fs argv junk cs :
  length junk = MAX_LINE_LENGTH →
  read_all fs (drop 1 argv) = Some cs →
  ∃ out,
    run fs argv junk = Some (0, out)
    ∧ (length out ≤ length (concat cs))%nat
    ∧ (out = concat cs ↔ Forall (λ c, NUL ∉ c) cs).
Proof.
  intros Hjunk Hall. rewrite (run_spec fs argv junk Hjunk).
  rewrite (expected_all fs _ _ Hall). cbn [fst snd default].
  eexists. split; [done|]. split; [apply shown_all_le|]. split.
  - intros Heq. destruct (decide (Forall (λ c, NUL ∉ c) cs)) as [|Hnot]; [done|].
    apply not_Forall_Exists in Hnot; [|apply _].
    assert (Exists (λ c, NUL ∈ c) cs) as Hex.
    { eapply Exists_impl; [exact Hnot|]. intros c Hc. simpl in Hc.
      by destruct (decide (NUL ∈ c)). }
    pose proof (shown_all_lt cs Hex) as Hlt. rewrite Heq in Hlt. lia.
  - intros Hnul. by rewrite (shown_all_id _ Hnul).
Qed.

Lemma wcat_faithful_iff_witness :
  ∃ out,
    run with_nul ["wcat"; "bin"]%string (replicate 1000 x2a) = Some (0, out)
    ∧ (length out ≤ length (concat [[x61; x00; x62; LF; x63; x00]]))%nat
    ∧ (out = concat [[x61; x00; x62; LF; x63; x00]]
       ↔ Forall (λ c, NUL ∉ c) [[x61; x00; x62; LF; x63; x00]]).
Proof.
  apply (wcat_faithful_iff with_nul ["wcat"; "bin"]%string (replicate 1000 x2a)
           [[x61; x00; x62; LF; x63; x00]]).
  - reflexivity.
  - vm_compute. reflexivity.
Defined.

(** X6.  Only the files named count: on two file systems that agree on
    every path of the argument list, the runs return the same exit code
    and write the same bytes. *)
Theorem wcat_named_files_only fs1 fs2 argv junk :
  length junk = MAX_LINE_LENGTH →
  (∀ p, p ∈ drop 1 argv → fs1 !! p = fs2 !! p) →
  is_Some (run fs1 argv junk) ∧ run fs1 argv junk = run fs2 argv junk.
Proof.
  intros Hjunk Hagree. rewrite !(run_spec _ _ _ Hjunk).
  by rewrite (expected_ext fs1 fs2 _ Hagree).
Qed.

Lemma wcat_named_files_only_witness :
  run hello_world ["wcat"; "a.txt"]%string (replicate 1000 x2a)
  = run (delete "b.txt"%string hello_world) ["wcat"; "a.txt"]%string
        (replicate 1000 x2a).
Proof.
  apply (wcat_named_files_only hello_world (delete "b.txt"%string hello_world)
           ["wcat"; "a.txt"]%string (replicate 1000 x2a)).
  - reflexivity.
  - intros p Hp. change (drop 1 ["wcat"; "a.txt"]%string) with ["a.txt"%string] in Hp.
    apply list_elem_of_singleton in Hp as ->. vm_compute. reflexivity.
Defined.

(** ** Lines that fit one read *)

Lemma fgets_scan_line m l rest :
  l ≠ [] → (length l ≤ m)%nat → LF ∉ take (pred (length l)) l →
  rest = [] ∨ last l = Some LF →
  fgets_scan m (l ++ rest) = (l, rest).
Proof.
  revert m; induction l as [|b l IH]; intros m Hne Hlen Hlf Hend; [done|].
  destruct m as [|m]; [cbn [length] in Hlen; lia|].
  destruct l as [|b' l].
  - cbn [app fgets_scan]. case_decide as Hb; [done|].
    destruct Hend as [->|Hlast]; [|cbn [last] in Hlast; congruence].
    by destruct m.
  - cbn [length pred] in Hlf. rewrite firstn_cons in Hlf.
    apply not_elem_of_cons in Hlf as [Hb Hlf].
    cbn [app fgets_scan]. rewrite decide_False by done.
    change (b' :: l ++ rest) with ((b' :: l) ++ rest).
    rewrite (IH m); [done|done|cbn [length] in *; lia|done|].
    destruct Hend as [->|Hlast]; [by left|right].
    by rewrite last_cons_cons in Hlast.
Qed.

Lemma chunks_lines ls : text_lines ls → chunks (concat ls) = ls.
Proof.
  induction ls as [|l ls IH]; [done|].
  intros ((Hne & Hlen & Hlf) & Hend & Hls). cbn [concat].
  rewrite chunks_cons by (by destruct l).
  rewrite (fgets_scan_line _ l (concat ls)); [|done|done|done|].
  - cbn [fst snd]. by rewrite IH.
  - destruct Hend as [->|Hlast]; [by left|by right].
Qed.

(** X7.  A file made of lines that fit one read is handled line by line:
    each [fgets] delivers one line, each [printf] writes one line up to
    its first NUL byte, and the output is those pieces in order. *)
Theorem wcat_line_by_line fs prog p ls junk :
  length junk = MAX_LINE_LENGTH →
  fs !! p = Some (concat ls) →
  text_lines ls →
  ∃ w,
    main [prog; p] junk (init_world fs) = Ok 0 w
    ∧ reads (trace w) = ls ++ [[]]
    ∧ writes (trace w) = before_nul <$> ls
    ∧ stdout w = concat (before_nul <$> ls).
Proof.
  intros Hjunk Hp Hls.
  destruct (main_spec fs [prog; p] junk Hjunk) as (t & Hmain & Ht).
  change (drop 1 [prog; p]) with [p] in Hmain, Ht.
  cbn [expected] in Hmain. rewrite Hp in Hmain. cbn [fst snd default] in Hmain.
  rewrite app_nil_r in Hmain. unfold shown in Hmain.
  eexists. split; [exact Hmain|]. cbn [stdout trace].
  destruct (run_trace_single _ _ _ _ _ Hp Ht) as (f & tl & -> & Htl).
  rewrite (chunks_lines ls Hls) in *.
  change (EvOpen p (Some f) :: tl ++ [EvClose f])
    with ([EvOpen p (Some f)] ++ tl ++ [EvClose f]).
  rewrite !reads_app, !writes_app.
  rewrite (loop_trace_reads _ _ _ _ Htl), (loop_trace_writes _ _ _ _ Htl).
  cbn [reads writes omap list_omap app]. by rewrite !app_nil_r.
Qed.

Lemma wcat_line_by_line_witness :
  ∃ w,
    main ["wcat"; "text"]%string (replicate 1000 x2a) (init_world three_lines)
    = Ok 0 w
    ∧ reads (trace w) = [[x61; x62; LF]; [x63; x00; x64; LF]; [x65]; []]
    ∧ writes (trace w) = [[x61; x62; LF]; [x63]; [x65]]
    ∧ stdout w = [x61; x62; LF; x63; x65].
Proof.
  apply (wcat_line_by_line three_lines "wcat" "text"
           [[x61; x62; LF]; [x63; x00; x64; LF]; [x65]] (replicate 1000 x2a)).
  - reflexivity.
  - vm_compute. reflexivity.
  - cbn [text_lines]. unfold fits_line.
    repeat split; try done; try (cbn [length]; unfold MAX_LINE_LENGTH; lia);
      try (apply (bool_decide_unpack _); vm_compute; exact I);
      try (by left); try (by right).
Defined.

(** ** The diagnostic *)

Lemma loop_trace_quiet Q f cs t : loop_trace Q f cs t → Forall quiet t.
Proof. induction 1; repeat constructor; done. Qed.

Lemma run_trace_outcome Q fs paths t :
  run_trace Q fs paths t →
  match (expected fs paths).2 with
  | None => Forall quiet t
  | Some _ =>
      ∃ t0 bad,
        t = t0 ++ [EvOpen bad None; EvPrintf cannot_open]
        ∧ bad ∈ paths ∧ fs !! bad = None ∧ Forall quiet t0
  end.
Proof.
  induction 1 as [|p paths Hp|p paths s f tl t Hp Htl _ IH]; cbn [expected].
  - constructor.
  - rewrite Hp. cbn [snd]. exists [], p. split_and!; [done| |done|constructor].
    apply elem_of_cons; auto.
  - rewrite Hp. destruct (expected fs paths) as [out [code|]]; cbn [snd] in *.
    + destruct IH as (t0 & bad & -> & Hin & Hbad & Hquiet).
      exists (EvOpen p (Some f) :: tl ++ EvClose f :: t0), bad.
      split_and!; [|apply elem_of_cons; auto|done|].
      * by rewrite <- !app_comm_cons, <- app_assoc.
      * constructor; [done|]. apply Forall_app. split;
          [by apply (loop_trace_quiet Q f (chunks s))|by constructor].
    + constructor; [done|]. apply Forall_app. split;
        [by apply (loop_trace_quiet Q f (chunks s))|by constructor].
Qed.

Lemma expected_failure fs paths code :
  (expected fs paths).2 = Some code →
  ∃ out0, (expected fs paths).1 = out0 ++ cannot_open.
Proof.
  induction paths as [|p paths IH]; cbn [expected]; [done|].
  destruct (fs !! p) as [s|].
  - destruct (expected fs paths) as [out r]; cbn [fst snd] in *.
    intros Hr. destruct (IH Hr) as [out0 ->]. exists (shown s ++ out0).
    by rewrite app_assoc.
  - intros _. by exists [].
Qed.

(** X8.  The diagnostic goes out exactly when the run fails, and then it
    is the last thing the program does: a run that returns 0 has no
    failed [fopen] and prints no diagnostic; a run that returns 1 ends
    with the failed [fopen] of a path named and the [printf] of the
    diagnostic, which are the only such calls, and the output ends with
    the diagnostic line. *)
Theorem wcat_diagnostic fs argv junk :
  length junk = MAX_LINE_LENGTH →
  ∃ code w,
    main argv junk (init_world fs) = Ok code w
    ∧ (code = 0 → Forall quiet (trace w))
    ∧ (code = 1 →
         ∃ t0 bad out0,
           trace w = t0 ++ [EvOpen bad None; EvPrintf cannot_open]
           ∧ bad ∈ drop 1 argv ∧ fs !! bad = None ∧ Forall quiet t0
           ∧ stdout w = out0 ++ cannot_open).
Proof.
  intros Hjunk.
  destruct (main_spec fs argv junk Hjunk) as (t & Hmain & Ht).
  eexists _, _. split; [exact Hmain|]. cbn [stdout trace].
  pose proof (run_trace_outcome _ _ _ _ Ht) as Hout.
  pose proof (expected_failure fs (drop 1 argv)) as Hfail.
  destruct (expected_code fs (drop 1 argv)) as [[Hr _]|[Hr _]];
    rewrite Hr in Hout, Hfail |- *; cbn [default].
  - split; [done|]. intros [=].
  - split; [intros [=]|]. intros _.
    destruct Hout as (t0 & bad & -> & Hin & Hbad & Hquiet).
    destruct (Hfail 1 eq_refl) as [out0 ->].
    by exists t0, bad, out0.
Qed.

Lemma wcat_diagnostic_witness :
  ∃ code w,
    main ["wcat"; "a.txt"; "missing.txt"; "b.txt"]%string (replicate 1000 x2a)
         (init_world hello_world) = Ok code w
    ∧ (code = 0 → Forall quiet (trace w))
    ∧ (code = 1 →
         ∃ t0 bad out0,
           trace w = t0 ++ [EvOpen bad None; EvPrintf cannot_open]
           ∧ bad ∈ drop 1 ["wcat"; "a.txt"; "missing.txt"; "b.txt"]%string
           ∧ hello_world !! bad = None ∧ Forall quiet t0
           ∧ stdout w = out0 ++ cannot_open).
Proof.
  apply (wcat_diagnostic hello_world
           ["wcat"; "a.txt"; "missing.txt"; "b.txt"]%string (replicate 1000 x2a)).
  reflexivity.
Defined.

(** ** An empty file *)

(** X9.  An empty file costs one [fopen], one [fgets] that returns NULL
    and one [fclose]: nothing is printed, and the exit code is 0. *)
Theorem wcat_empty_file fs prog p junk :
  length junk = MAX_LINE_LENGTH →
  fs !! p = Some [] →
  ∃ f,
    main [prog; p] junk (init_world fs)
    = Ok 0 (World fs ∅ [] [EvOpen p (Some f); EvGets f []; EvClose f]).
Proof.
  intros Hjunk Hp.
  destruct (main_spec fs [prog; p] junk Hjunk) as (t & Hmain & Ht).
  change (drop 1 [prog; p]) with [p] in Hmain, Ht.
  cbn [expected] in Hmain. rewrite Hp in Hmain. cbn [fst snd default] in Hmain.
  destruct (run_trace_single _ _ _ _ _ Hp Ht) as (f & tl & -> & Htl).
  rewrite chunks_nil in Htl. inversion Htl; subst.
  exists f. exact Hmain.
Qed.

Lemma wcat_empty_file_witness :
  ∃ f,
    main ["wcat"; "empty"]%string (replicate 1000 x2a) (init_world with_empty)
    = Ok 0 (World with_empty ∅ []
              [EvOpen "empty" (Some f); EvGets f []; EvClose f]).
Proof.
  apply (wcat_empty_file with_empty "wcat" "empty" (replicate 1000 x2a)).
  - reflexivity.
  - vm_compute. reflexivity.
Defined.

(** ** The size of a write *)

Lemma run_trace_writes Q fs paths t :
  run_trace Q fs paths t →
  Forall (λ s, (length s ≤ MAX_LINE_LENGTH - 2)%nat) (writes t)
  ∧ concat (writes t) = (expected fs paths).1.
Proof.
  induction 1 as [|p paths Hp|p paths s f tl t Hp Htl _ [IHb IHc]]; cbn [expected].
  - by split.
  - rewrite Hp. split; [|done]. constructor; [vm_compute; lia|constructor].
  - rewrite Hp.
    change (EvOpen p (Some f) :: tl ++ EvClose f :: t)
      with ([EvOpen p (Some f)] ++ tl ++ [EvClose f] ++ t).
    rewrite !writes_app, (loop_trace_writes _ _ _ _ Htl).
    change (writes [EvOpen p (Some f)]) with (@nil (list byte)).
    change (writes [EvClose f]) with (@nil (list byte)).
    cbn [app]. destruct (expected fs paths) as [out r]; cbn [fst] in *. split.
    + apply Forall_app. split; [|done].
      apply Forall_fmap. eapply Forall_impl; [apply chunks_bounded|].
      intros c Hc. cbn beta in *. pose proof (before_nul_length c).
      unfold compose. lia.
    + by rewrite concat_app, IHc.
Qed.

(** X10.  Output is written in pieces of at most 998 bytes
    ([MAX_LINE_LENGTH - 2]), the diagnostic included, and standard output
    is those pieces one after the other. *)
Theorem wcat_write_size fs argv junk :
  length junk = MAX_LINE_LENGTH →
  ∃ code w,
    main argv junk (init_world fs) = Ok code w
    ∧ Forall (λ s, (length s ≤ MAX_LINE_LENGTH - 2)%nat) (writes (trace w))
    ∧ concat (writes (trace w)) = stdout w.
Proof.
  intros Hjunk.
  destruct (main_spec fs argv junk Hjunk) as (t & Hmain & Ht).
  eexists _, _. split; [exact Hmain|]. cbn [stdout trace].
  apply (run_trace_writes _ _ _ _ Ht).
Qed.

Lemma wcat_write_size_witness :
  ∃ code w,
    main ["wcat"; "long"; "missing"]%string (replicate 1000 x2a)
         (init_world line_1500) = Ok code w
    ∧ Forall (λ s, (length s ≤ MAX_LINE_LENGTH - 2)%nat) (writes (trace w))
    ∧ concat (writes (trace w)) = stdout w.
Proof.
  apply (wcat_write_size line_1500 ["wcat"; "long"; "missing"]%string
           (replicate 1000 x2a)).
  reflexivity.
Defined.
